(** * ffire: the generated plugin-message codec and its C boundary

    A shallow embedding of
      - [dist/csharp/include/generated.hpp]  (namespace [test]: the entity
        model, [Encoder], [Decoder], [encode_plugin_message],
        [decode_plugin_message]);
      - [experimental/cpp-bindings/common/generated_c.cpp]  ([plugin_*] and
        [parameter_*]);
      - [test-dist/cpp/src/generated_c.cpp]  ([message_*]).

    Conventions.
      - a byte ([uint8_t], and a [char] of a [std::string]) is [Byte.byte];
      - a [std::string] is the list of its bytes, a [std::vector] a list;
      - fixed-width integers are [Z], every [static_cast] is written out as
        the reduction it performs;
      - a [float] is carried as its 32-bit IEEE-754 pattern: the codec only
        ever moves it through [std::memcpy] to and from a [uint32_t];
      - [size_t] quantities (vector sizes, the read cursor) are [nat]. *)

From Stdlib Require Import ZArith Lia List Strings.Byte.
From stdpp Require Import prelude strings gmap.
From coqutil Require Import Z.bitblast.

Local Open Scope Z_scope.

(* ===================================================================== *)
(** ** Machine integers and casts                                          *)
(* ===================================================================== *)

(** Value of a [uint8_t]. *)
Definition byte_to_Z (b : byte) : Z := Z.of_N (Byte.to_N b).

(** [static_cast<uint8_t>(z)]. *)
Definition cast_uint8 (z : Z) : byte :=
  default x00 (Byte.of_N (Z.to_N (z mod 2 ^ 8))).

(** [static_cast<uint16_t>(z)], [static_cast<uint32_t>(z)],
    [static_cast<uint64_t>(z)]. *)
Definition cast_uint16 (z : Z) : Z := z mod 2 ^ 16.
Definition cast_uint32 (z : Z) : Z := z mod 2 ^ 32.
Definition cast_uint64 (z : Z) : Z := z mod 2 ^ 64.

(** [static_cast<int8_t>(u)] ... [static_cast<int64_t>(u)]: two's
    complement reinterpretation. *)
Definition cast_int8 (u : Z) : Z :=
  let w := u mod 2 ^ 8 in if w <? 2 ^ 7 then w else w - 2 ^ 8.
Definition cast_int16 (u : Z) : Z :=
  let w := u mod 2 ^ 16 in if w <? 2 ^ 15 then w else w - 2 ^ 16.
Definition cast_int32 (u : Z) : Z :=
  let w := u mod 2 ^ 32 in if w <? 2 ^ 31 then w else w - 2 ^ 32.
Definition cast_int64 (u : Z) : Z :=
  let w := u mod 2 ^ 64 in if w <? 2 ^ 63 then w else w - 2 ^ 64.

(** Membership in the value ranges of the C++ types. *)
Definition is_uint16 (z : Z) : bool := (0 <=? z) && (z <? 2 ^ 16).
Definition is_uint32 (z : Z) : bool := (0 <=? z) && (z <? 2 ^ 32).
Definition is_int32 (z : Z) : bool := (- 2 ^ 31 <=? z) && (z <? 2 ^ 31).
Definition is_int64 (z : Z) : bool := (- 2 ^ 63 <=? z) && (z <? 2 ^ 63).

(* ===================================================================== *)
(** ** Entity model  (generated.hpp, lines 16-38)                          *)
(* ===================================================================== *)

Definition std_string := list byte.

(** A [float] and a [double], as the bit patterns [std::memcpy] exposes. *)
Definition float32 := Z.
Definition float64 := Z.

(** The struct [Parameter] is spelled [Parameter_], and the field [Type] of
    [Plugin] is spelled [Type_]: both words are reserved. *)
Record Parameter_ := mkParameter {
  DisplayName : std_string;
  DefaultValue : float32;
  CurrentValue : float32;
  Address : Z;
  MaxValue : float32;
  MinValue : float32;
  Unit : std_string;
  Identifier : std_string;
  CanRamp : bool;
  IsWritable : bool;
  RawFlags : Z;
  IndexedValues : option (list std_string);
  IndexedValuesSource : option std_string
}.

Record Plugin := mkPlugin {
  Name : std_string;
  ManufacturerID : std_string;
  Type_ : std_string;
  Subtype : std_string;
  Parameters : list Parameter_
}.

Definition Message := list Plugin.

(* ===================================================================== *)
(** ** Encoder  (generated.hpp, lines 41-95)                               *)
(* ===================================================================== *)

Record Encoder := mkEncoder { buffer : list byte }.

(** Statement sequencing on the encoder: run [f], then [g]. *)
Definition andthen (f g : Encoder -> Encoder) : Encoder -> Encoder :=
  fun enc => g (f enc).
Infix ">>" := andthen (at level 50, left associativity).

(** A range-based [for] whose body writes to the encoder. *)
Definition for_each {A} (body : A -> Encoder -> Encoder) (xs : list A)
  : Encoder -> Encoder :=
  fun enc => fold_left (fun e x => body x e) xs enc.

(** [buffer.push_back(b)]. *)
Definition push_back (b : byte) (enc : Encoder) : Encoder :=
  {| buffer := buffer enc ++ [b] |}.

Definition write_byte (b : byte) : Encoder -> Encoder := push_back b.

Definition write_bool (v : bool) : Encoder -> Encoder :=
  push_back (if v then x01 else x00).

Definition write_int8 (v : Z) : Encoder -> Encoder :=
  push_back (cast_uint8 v).

Definition write_int16 (v : Z) : Encoder -> Encoder :=
  let u := cast_uint16 v in
  push_back (cast_uint8 u) >>
  push_back (cast_uint8 (Z.shiftr u 8)).

Definition write_int32 (v : Z) : Encoder -> Encoder :=
  let u := cast_uint32 v in
  push_back (cast_uint8 u) >>
  push_back (cast_uint8 (Z.shiftr u 8)) >>
  push_back (cast_uint8 (Z.shiftr u 16)) >>
  push_back (cast_uint8 (Z.shiftr u 24)).

Definition write_int64 (v : Z) : Encoder -> Encoder :=
  let u := cast_uint64 v in
  push_back (cast_uint8 u) >>
  push_back (cast_uint8 (Z.shiftr u 8)) >>
  push_back (cast_uint8 (Z.shiftr u 16)) >>
  push_back (cast_uint8 (Z.shiftr u 24)) >>
  push_back (cast_uint8 (Z.shiftr u 32)) >>
  push_back (cast_uint8 (Z.shiftr u 40)) >>
  push_back (cast_uint8 (Z.shiftr u 48)) >>
  push_back (cast_uint8 (Z.shiftr u 56)).

(** [memcpy(&u, &v, sizeof(float))] and back, on the bit-pattern model of
    [float]; likewise for [double]. *)
Definition float_bits (v : float32) : Z := v.
Definition bits_float (u : Z) : float32 := u.
Definition double_bits (v : float64) : Z := v.
Definition bits_double (u : Z) : float64 := u.

Definition write_float32 (v : float32) : Encoder -> Encoder :=
  let u := float_bits v in
  write_int32 (cast_int32 u).

Definition write_float64 (v : float64) : Encoder -> Encoder :=
  let u := double_bits v in
  write_int64 (cast_int64 u).

Definition write_string (s : std_string) : Encoder -> Encoder :=
  let len := cast_uint16 (Z.of_nat (length s)) in
  push_back (cast_uint8 len) >>
  push_back (cast_uint8 (Z.shiftr len 8)) >>
  (fun enc => {| buffer := buffer enc ++ s |}).

(* ===================================================================== *)
(** ** Decoder  (generated.hpp, lines 98-187)                              *)
(* ===================================================================== *)

(** [data] is the memory the pointer designates, [size] the length the
    caller supplied, [pos] the read cursor. *)
Record Decoder := mkDecoder { data : list byte; size : nat; pos : nat }.

(** What running a piece of decoder code does: it returns a value and the
    updated decoder, it throws [std::runtime_error(what)], or it reads a
    byte at an offset that is not below the supplied [size]. *)
Inductive outcome (A : Type) : Type :=
  | Ok (a : A) (d : Decoder)
  | Throw (what : string)
  | OutOfBounds.
Arguments Ok {A} a d.
Arguments Throw {A} what.
Arguments OutOfBounds {A}.

Definition M (A : Type) : Type := Decoder -> outcome A.

Definition ret {A} (a : A) : M A := fun d => Ok a d.

Definition bind {A B} (m : M A) (f : A -> M B) : M B :=
  fun d => match m d with
           | Ok a d' => f a d'
           | Throw w => Throw w
           | OutOfBounds => OutOfBounds
           end.

Declare Scope decoder_scope.
Delimit Scope decoder_scope with dec.
Bind Scope decoder_scope with M.
Notation "x <- m ;; f" := (bind m (fun x => f))
  (at level 100, m at next level, f at level 200, right associativity)
  : decoder_scope.
Notation "m ;; f" := (bind m (fun _ => f))
  (at level 100, f at level 200, right associativity) : decoder_scope.
Local Open Scope decoder_scope.

Definition insufficient_data : string := "insufficient data for decode".

Definition check_remaining (needed : nat) : M unit :=
  fun d => if (size d <? pos d + needed)%nat
           then Throw insufficient_data
           else Ok tt d.

(** The memory read [data[pos + k]]. *)
Definition load (k : nat) : M byte :=
  fun d => if (pos d + k <? size d)%nat
           then match data d !! (pos d + k)%nat with
                | Some b => Ok b d
                | None => OutOfBounds
                end
           else OutOfBounds.

(** The memory read of [std::string s(data + pos, len)]: bytes
    [pos .. pos + len - 1]. *)
Definition load_range (len : nat) : M (list byte) :=
  fun d => if ((pos d + len <=? size d) &&
               (pos d + len <=? length (data d)))%nat
           then Ok (take len (drop (pos d) (data d))) d
           else OutOfBounds.

(** [pos += n]. *)
Definition advance (n : nat) : M unit :=
  fun d => Ok tt {| data := data d; size := size d; pos := (pos d + n)%nat |}.

Definition read_bool : M bool :=
  check_remaining 1 ;;
  b <- load 0 ;;
  advance 1 ;;
  ret (negb (Byte.eqb b x00)).

Definition read_int8 : M Z :=
  check_remaining 1 ;;
  b <- load 0 ;;
  advance 1 ;;
  ret (cast_int8 (byte_to_Z b)).

Definition read_int16 : M Z :=
  check_remaining 2 ;;
  b0 <- load 0 ;; b1 <- load 1 ;;
  let u := cast_uint16 (Z.lor (byte_to_Z b0) (Z.shiftl (byte_to_Z b1) 8)) in
  advance 2 ;;
  ret (cast_int16 u).

Definition read_int32 : M Z :=
  check_remaining 4 ;;
  b0 <- load 0 ;; b1 <- load 1 ;; b2 <- load 2 ;; b3 <- load 3 ;;
  let u := cast_uint32
    (Z.lor (Z.lor (Z.lor (byte_to_Z b0)
                         (Z.shiftl (byte_to_Z b1) 8))
                  (Z.shiftl (byte_to_Z b2) 16))
           (Z.shiftl (byte_to_Z b3) 24)) in
  advance 4 ;;
  ret (cast_int32 u).

Definition read_int64 : M Z :=
  check_remaining 8 ;;
  b0 <- load 0 ;; b1 <- load 1 ;; b2 <- load 2 ;; b3 <- load 3 ;;
  b4 <- load 4 ;; b5 <- load 5 ;; b6 <- load 6 ;; b7 <- load 7 ;;
  let u := cast_uint64
    (Z.lor (Z.lor (Z.lor (Z.lor (Z.lor (Z.lor (Z.lor
       (byte_to_Z b0)
       (Z.shiftl (byte_to_Z b1) 8))
       (Z.shiftl (byte_to_Z b2) 16))
       (Z.shiftl (byte_to_Z b3) 24))
       (Z.shiftl (byte_to_Z b4) 32))
       (Z.shiftl (byte_to_Z b5) 40))
       (Z.shiftl (byte_to_Z b6) 48))
       (Z.shiftl (byte_to_Z b7) 56)) in
  advance 8 ;;
  ret (cast_int64 u).

Definition read_float32 : M float32 :=
  v <- read_int32 ;;
  let u := cast_uint32 v in
  ret (bits_float u).

Definition read_float64 : M float64 :=
  v <- read_int64 ;;
  let u := cast_uint64 v in
  ret (bits_double u).

Definition read_string : M std_string :=
  check_remaining 2 ;;
  b0 <- load 0 ;; b1 <- load 1 ;;
  let len := cast_uint16 (Z.lor (byte_to_Z b0) (Z.shiftl (byte_to_Z b1) 8)) in
  advance 2 ;;
  check_remaining (Z.to_nat len) ;;
  s <- load_range (Z.to_nat len) ;;
  advance (Z.to_nat len) ;;
  ret s.

Definition read_array_length : M Z :=
  check_remaining 2 ;;
  b0 <- load 0 ;; b1 <- load 1 ;;
  let len := cast_uint16 (Z.lor (byte_to_Z b0) (Z.shiftl (byte_to_Z b1) 8)) in
  advance 2 ;;
  ret len.

(** [for (uint16_t i = 0; i < len; ++i) { ...; v.push_back(elem); }] with
    [n] iterations left and [acc] the vector built so far. *)
Fixpoint for_push {A} (n : nat) (body : M A) (acc : list A) : M (list A) :=
  match n with
  | O => ret acc
  | S n' => x <- body ;; for_push n' body (acc ++ [x])
  end.

(* ===================================================================== *)
(** ** encode_plugin_message  (generated.hpp, lines 190-241)               *)
(* ===================================================================== *)

(** The block that writes a 16-bit element count:
    [uint16_t len = static_cast<uint16_t>(v.size());
     enc.write_byte(static_cast<uint8_t>(len));
     enc.write_byte(static_cast<uint8_t>(len >> 8));] *)
Definition write_count (n : nat) : Encoder -> Encoder :=
  let len := cast_uint16 (Z.of_nat n) in
  write_byte (cast_uint8 len) >>
  write_byte (cast_uint8 (Z.shiftr len 8)).

(** Body of the loop over [elem.Parameters] (lines 207-238). *)
Definition encode_parameter (elem : Parameter_) : Encoder -> Encoder :=
  write_string (DisplayName elem) >>
  write_float32 (DefaultValue elem) >>
  write_float32 (CurrentValue elem) >>
  write_int32 (Address elem) >>
  write_float32 (MaxValue elem) >>
  write_float32 (MinValue elem) >>
  write_string (Unit elem) >>
  write_string (Identifier elem) >>
  write_bool (CanRamp elem) >>
  write_bool (IsWritable elem) >>
  write_int64 (RawFlags elem) >>
  match IndexedValues elem with
  | Some v => write_byte x01 >> write_count (length v) >> for_each write_string v
  | None => write_byte x00
  end >>
  match IndexedValuesSource elem with
  | Some s => write_byte x01 >> write_string s
  | None => write_byte x00
  end.

(** Body of the loop over [value] (lines 197-239). *)
Definition encode_plugin (elem : Plugin) : Encoder -> Encoder :=
  write_string (Name elem) >>
  write_string (ManufacturerID elem) >>
  write_string (Type_ elem) >>
  write_string (Subtype elem) >>
  write_count (length (Parameters elem)) >>
  for_each encode_parameter (Parameters elem).

Definition encode_plugin_message (value : list Plugin) : list byte :=
  buffer ((write_count (length value) >> for_each encode_plugin value)
            {| buffer := [] |}).

(* ===================================================================== *)
(** ** decode_plugin_message  (generated.hpp, lines 244-299)               *)
(* ===================================================================== *)

(** Lines 272-284: the optional [IndexedValues]. *)
Definition decode_indexed_values : M (option (list std_string)) :=
  present <- read_bool ;;
  if present
  then len <- read_array_length ;;
       tmp <- for_push (Z.to_nat len) read_string [] ;;
       ret (Some tmp)
  else ret None.

(** Lines 285-287: the optional [IndexedValuesSource]. *)
Definition decode_indexed_values_source : M (option std_string) :=
  present <- read_bool ;;
  if present
  then s <- read_string ;; ret (Some s)
  else ret None.

(** Body of the loop over parameters (lines 260-288). *)
Definition decode_parameter : M Parameter_ :=
  displayName <- read_string ;;
  defaultValue <- read_float32 ;;
  currentValue <- read_float32 ;;
  address <- read_int32 ;;
  maxValue <- read_float32 ;;
  minValue <- read_float32 ;;
  unit_ <- read_string ;;
  identifier <- read_string ;;
  canRamp <- read_bool ;;
  isWritable <- read_bool ;;
  rawFlags <- read_int64 ;;
  indexedValues <- decode_indexed_values ;;
  indexedValuesSource <- decode_indexed_values_source ;;
  ret {| DisplayName := displayName;
         DefaultValue := defaultValue;
         CurrentValue := currentValue;
         Address := address;
         MaxValue := maxValue;
         MinValue := minValue;
         Unit := unit_;
         Identifier := identifier;
         CanRamp := canRamp;
         IsWritable := isWritable;
         RawFlags := rawFlags;
         IndexedValues := indexedValues;
         IndexedValuesSource := indexedValuesSource |}.

(** Body of the loop over plugins (lines 251-291). *)
Definition decode_plugin : M Plugin :=
  name <- read_string ;;
  manufacturerID <- read_string ;;
  type_ <- read_string ;;
  subtype <- read_string ;;
  len <- read_array_length ;;
  parameters <- for_push (Z.to_nat len) decode_parameter [] ;;
  ret {| Name := name;
         ManufacturerID := manufacturerID;
         Type_ := type_;
         Subtype := subtype;
         Parameters := parameters |}.

Definition decode_message : M (list Plugin) :=
  len <- read_array_length ;;
  for_push (Z.to_nat len) decode_plugin [].

(** What a call of a function yields to its caller. *)
Inductive result (A : Type) : Type :=
  | Returns (a : A)
  | Throws (what : string)
  | Undefined.
Arguments Returns {A} a.
Arguments Throws {A} what.
Arguments Undefined {A}.

Definition run {A} (m : M A) (d : Decoder) : result A :=
  match m d with
  | Ok a _ => Returns a
  | Throw w => Throws w
  | OutOfBounds => Undefined
  end.

(** [decode_plugin_message(const uint8_t* data, size_t size)]: ["Decoder
    dec(data, size)"] starts the cursor at 0. *)
Definition decode_plugin_message (data : list byte) (size : nat)
  : result (list Plugin) :=
  run decode_message {| data := data; size := size; pos := 0 |}.

(** [decode_plugin_message(const std::vector<uint8_t>& data)]. *)
Definition decode_plugin_message_vec (v : list byte) : result (list Plugin) :=
  decode_plugin_message v (length v).

(* ===================================================================== *)
(** ** The C boundary: shared vocabulary                                   *)
(* ===================================================================== *)

(** A [void*] handle: null, or the address of an object on the heap. *)
Inductive pointer : Type :=
  | nullptr
  | Addr (a : positive).

(** What a call of an [extern "C"] function does: it completes with a
    value (every C++ exception is caught inside), or it runs into undefined
    behaviour (it dereferences a pointer to no live object, indexes a vector
    out of range, or stores through a null out-parameter). *)
Inductive defined (A : Type) : Type :=
  | Done (a : A)
  | UB.
Arguments Done {A} a.
Arguments UB {A}.

Definition and_then {A B} (c : defined A) (f : A -> defined B) : defined B :=
  match c with
  | Done a => f a
  | UB => UB
  end.

Declare Scope boundary_scope.
Delimit Scope boundary_scope with cb.
Bind Scope boundary_scope with defined.
Notation "x <- c ;; f" := (and_then c (fun x => f))
  (at level 100, c at next level, f at level 200, right associativity)
  : boundary_scope.

(** [make_error_msg]: a fresh copy of the message, owned by the caller. *)
Definition make_error_msg (msg : string) : string := msg.

(** [if (error_msg) *error_msg = make_error_msg(msg);] where [error_msg]
    tells whether the caller passed a non-null location.  The result is
    what the location holds afterwards, [None] when nothing was stored. *)
Definition store_error (error_msg : bool) (msg : string) : option string :=
  if error_msg then Some (make_error_msg msg) else None.

(** [v[i]] on a [std::vector]: undefined out of range. *)
Definition at_index {A} (v : list A) (i : nat) : defined A :=
  match v !! i with
  | Some x => Done x
  | None => UB
  end.

(* ===================================================================== *)
(** ** test-dist/cpp/src/generated_c.cpp                                   *)
(* ===================================================================== *)

Module MessageC.

Record MessageHandleImpl := mkImpl {
  items : list Plugin;
  error : string;
  encoded_data : list byte
}.

(** The live [MessageHandleImpl] objects, by address. *)
Abbreviation heap := (gmap positive MessageHandleImpl).

(** The outcome of [message_decode]: the handle returned, what
    [*error_msg] received, and the heap. *)
Definition message_decode (data : option (list byte)) (len : nat)
    (error_msg : bool) (h : heap)
  : defined (pointer * option string * heap) :=
  match data with
  | None => Done (nullptr, store_error error_msg "Invalid input data", h)
  | Some bytes =>
    if (len =? 0)%nat
    then Done (nullptr, store_error error_msg "Invalid input data", h)
    else
      match decode_plugin_message bytes len with
      | Returns result =>
        match result with
        | [] => Done (nullptr, store_error error_msg "No items in message", h)
        | _ :: _ =>
          let a := fresh (dom h) in
          Done (Addr a, None,
                <[a := {| items := result; error := "";
                          encoded_data := [] |}]> h)
        end
      | Throws what => Done (nullptr, store_error error_msg what, h)
      | Undefined => UB
      end
  end.

(** The outcome of [message_encode]: the size returned, what [*out_data]
    and [*error_msg] received, and the heap.  [out_data] tells whether the
    caller passed a non-null location; the function stores through it
    unchecked. *)
Definition message_encode (handle : pointer) (out_data error_msg : bool)
    (h : heap)
  : defined (nat * option (list byte) * option string * heap) :=
  match handle with
  | nullptr => Done (0%nat, None, store_error error_msg "Invalid handle", h)
  | Addr a =>
    match h !! a with
    | None => UB
    | Some impl =>
      let encoded := encode_plugin_message (items impl) in
      let h' := <[a := {| items := items impl; error := error impl;
                          encoded_data := encoded |}]> h in
      if out_data
      then Done (length encoded, Some encoded, None, h')
      else UB
    end
  end.

(** [delete static_cast<MessageHandleImpl*>(handle)]. *)
Definition message_free (handle : pointer) (h : heap) : defined heap :=
  match handle with
  | nullptr => Done h
  | Addr a =>
    match h !! a with
    | None => UB
    | Some _ => Done (delete a h)
    end
  end.

End MessageC.

(* ===================================================================== *)
(** ** experimental/cpp-bindings/common/generated_c.cpp                    *)
(* ===================================================================== *)

Module PluginC.

Record PluginHandleImpl := mkImpl {
  plugins : list Plugin;
  error : string;
  encoded_data : list byte
}.

(** [const test::Parameter* param]: the address
    [&impl->plugins[0].Parameters[index]], kept as the owning object and
    the index. *)
Record ParameterHandleImpl := mkParam {
  owner : positive;
  index : nat
}.

(** Both kinds of object come from the same [new]. *)
Inductive object : Type :=
  | PluginObj (impl : PluginHandleImpl)
  | ParameterObj (impl : ParameterHandleImpl).

Abbreviation heap := (gmap positive object).

Definition plugin_decode (data : option (list byte)) (len : nat)
    (error_msg : bool) (h : heap)
  : defined (pointer * option string * heap) :=
  match data with
  | None => Done (nullptr, store_error error_msg "Invalid input data", h)
  | Some bytes =>
    if (len =? 0)%nat
    then Done (nullptr, store_error error_msg "Invalid input data", h)
    else
      match decode_plugin_message bytes len with
      | Returns result =>
        match result with
        | [] =>
          Done (nullptr, store_error error_msg "No plugins in message", h)
        | _ :: _ =>
          let a := fresh (dom h) in
          Done (Addr a, None,
                <[a := PluginObj {| plugins := result; error := "";
                                    encoded_data := [] |}]> h)
        end
      | Throws what => Done (nullptr, store_error error_msg what, h)
      | Undefined => UB
      end
  end.

(** [static_cast<PluginHandleImpl*>(handle)] followed by a member access,
    for a non-null [handle]. *)
Definition plugin_impl (a : positive) (h : heap) : defined PluginHandleImpl :=
  match h !! a with
  | Some (PluginObj impl) => Done impl
  | _ => UB
  end.

Definition plugin_encode (handle : pointer) (out_data error_msg : bool)
    (h : heap)
  : defined (nat * option (list byte) * option string * heap) :=
  match handle with
  | nullptr => Done (0%nat, None, store_error error_msg "Invalid handle", h)
  | Addr a =>
    (impl <- plugin_impl a h ;;
     let encoded := encode_plugin_message (plugins impl) in
     let h' := <[a := PluginObj {| plugins := plugins impl;
                                   error := error impl;
                                   encoded_data := encoded |}]> h in
     if out_data
     then Done (length encoded, Some encoded, None, h')
     else UB)%cb
  end.

Definition plugin_free (handle : pointer) (h : heap) : defined heap :=
  match handle with
  | nullptr => Done h
  | Addr a => (_ <- plugin_impl a h ;; Done (delete a h))%cb
  end.

(** [impl->plugins[0]]. *)
Definition first_plugin (a : positive) (h : heap) : defined Plugin :=
  (impl <- plugin_impl a h ;; at_index (plugins impl) 0)%cb.

(** The four text getters return [c_str()], [None] standing for
    [nullptr]. *)
Definition plugin_get_name (handle : pointer) (h : heap)
  : defined (option std_string) :=
  match handle with
  | nullptr => Done None
  | Addr a => (p <- first_plugin a h ;; Done (Some (Name p)))%cb
  end.

Definition plugin_get_manufacturer_id (handle : pointer) (h : heap)
  : defined (option std_string) :=
  match handle with
  | nullptr => Done None
  | Addr a => (p <- first_plugin a h ;; Done (Some (ManufacturerID p)))%cb
  end.

Definition plugin_get_type (handle : pointer) (h : heap)
  : defined (option std_string) :=
  match handle with
  | nullptr => Done None
  | Addr a => (p <- first_plugin a h ;; Done (Some (Type_ p)))%cb
  end.

Definition plugin_get_subtype (handle : pointer) (h : heap)
  : defined (option std_string) :=
  match handle with
  | nullptr => Done None
  | Addr a => (p <- first_plugin a h ;; Done (Some (Subtype p)))%cb
  end.

Definition plugin_get_parameters_count (handle : pointer) (h : heap)
  : defined nat :=
  match handle with
  | nullptr => Done 0%nat
  | Addr a => (p <- first_plugin a h ;; Done (length (Parameters p)))%cb
  end.

(** Returns the parameter handle and the heap, which holds the new
    [ParameterHandleImpl] when one was made. *)
Definition plugin_get_parameter (handle : pointer) (index : nat) (h : heap)
  : defined (pointer * heap) :=
  match handle with
  | nullptr => Done (nullptr, h)
  | Addr a =>
    (p <- first_plugin a h ;;
     if (length (Parameters p) <=? index)%nat
     then Done (nullptr, h)
     else
       let b := fresh (dom h) in
       Done (Addr b, <[b := ParameterObj {| owner := a; index := index |}]> h)
    )%cb
  end.

(** [*impl->param] for a non-null parameter handle. *)
Definition parameter_target (b : positive) (h : heap) : defined Parameter_ :=
  match h !! b with
  | Some (ParameterObj impl) =>
    (p <- first_plugin (owner impl) h ;;
     at_index (Parameters p) (index impl))%cb
  | _ => UB
  end.

Definition parameter_get_display_name (handle : pointer) (h : heap)
  : defined (option std_string) :=
  match handle with
  | nullptr => Done None
  | Addr b => (q <- parameter_target b h ;; Done (Some (DisplayName q)))%cb
  end.

(** [0.0f] is the all-zero pattern. *)
Definition parameter_get_default_value (handle : pointer) (h : heap)
  : defined float32 :=
  match handle with
  | nullptr => Done 0%Z
  | Addr b => (q <- parameter_target b h ;; Done (DefaultValue q))%cb
  end.

Definition parameter_get_current_value (handle : pointer) (h : heap)
  : defined float32 :=
  match handle with
  | nullptr => Done 0%Z
  | Addr b => (q <- parameter_target b h ;; Done (CurrentValue q))%cb
  end.

Definition parameter_get_address (handle : pointer) (h : heap)
  : defined Z :=
  match handle with
  | nullptr => Done 0%Z
  | Addr b => (q <- parameter_target b h ;; Done (Address q))%cb
  end.

Definition parameter_get_max_value (handle : pointer) (h : heap)
  : defined float32 :=
  match handle with
  | nullptr => Done 0%Z
  | Addr b => (q <- parameter_target b h ;; Done (MaxValue q))%cb
  end.

Definition parameter_get_min_value (handle : pointer) (h : heap)
  : defined float32 :=
  match handle with
  | nullptr => Done 0%Z
  | Addr b => (q <- parameter_target b h ;; Done (MinValue q))%cb
  end.

Definition parameter_get_unit (handle : pointer) (h : heap)
  : defined (option std_string) :=
  match handle with
  | nullptr => Done None
  | Addr b => (q <- parameter_target b h ;; Done (Some (Unit q)))%cb
  end.

Definition parameter_get_identifier (handle : pointer) (h : heap)
  : defined (option std_string) :=
  match handle with
  | nullptr => Done None
  | Addr b => (q <- parameter_target b h ;; Done (Some (Identifier q)))%cb
  end.

Definition parameter_get_can_ramp (handle : pointer) (h : heap)
  : defined Z :=
  match handle with
  | nullptr => Done 0%Z
  | Addr b =>
    (q <- parameter_target b h ;; Done (if CanRamp q then 1 else 0)%Z)%cb
  end.

Definition parameter_get_is_writable (handle : pointer) (h : heap)
  : defined Z :=
  match handle with
  | nullptr => Done 0%Z
  | Addr b =>
    (q <- parameter_target b h ;; Done (if IsWritable q then 1 else 0)%Z)%cb
  end.

Definition parameter_get_raw_flags (handle : pointer) (h : heap)
  : defined Z :=
  match handle with
  | nullptr => Done 0%Z
  | Addr b => (q <- parameter_target b h ;; Done (RawFlags q))%cb
  end.

Definition parameter_get_indexed_values_count (handle : pointer) (h : heap)
  : defined nat :=
  match handle with
  | nullptr => Done 0%nat
  | Addr b =>
    (q <- parameter_target b h ;;
     match IndexedValues q with
     | None => Done 0%nat
     | Some v => Done (length v)
     end)%cb
  end.

Definition parameter_get_indexed_value (handle : pointer) (index : nat)
    (h : heap) : defined (option std_string) :=
  match handle with
  | nullptr => Done None
  | Addr b =>
    (q <- parameter_target b h ;;
     match IndexedValues q with
     | None => Done None
     | Some v =>
       if (length v <=? index)%nat
       then Done None
       else (s <- at_index v index ;; Done (Some s))
     end)%cb
  end.

Definition parameter_get_indexed_values_source (handle : pointer) (h : heap)
  : defined (option std_string) :=
  match handle with
  | nullptr => Done None
  | Addr b =>
    (q <- parameter_target b h ;;
     match IndexedValuesSource q with
     | None => Done None
     | Some s => Done (Some s)
     end)%cb
  end.

End PluginC.

(* ===================================================================== *)
(** ** The accessor surface and the reachable heaps                        *)
(* ===================================================================== *)

(** The accessor surface of [PluginC], as one type of calls, to speak of
    every accessor at once. *)
Inductive accessor : Type :=
  | Get_name
  | Get_manufacturer_id
  | Get_type
  | Get_subtype
  | Get_parameters_count
  | Get_parameter (index : nat)
  | Get_display_name
  | Get_default_value
  | Get_current_value
  | Get_address
  | Get_max_value
  | Get_min_value
  | Get_unit
  | Get_identifier
  | Get_can_ramp
  | Get_is_writable
  | Get_raw_flags
  | Get_indexed_values_count
  | Get_indexed_value (index : nat)
  | Get_indexed_values_source.

Inductive value : Type :=
  | VText (s : option std_string)
  | VSize (n : nat)
  | VFloat (f : float32)
  | VInt (z : Z)
  | VHandle (p : pointer).

Definition returning {A} (wrap : A -> value) (c : defined A) : defined value :=
  match c with
  | Done a => Done (wrap a)
  | UB => UB
  end.

(** What accessor [g] returns on [handle].  For [Get_parameter] this is the
    handle returned; the heap it leaves is not part of the value. *)
Definition call (g : accessor) (handle : pointer) (h : PluginC.heap)
  : defined value :=
  match g with
  | Get_name => returning VText (PluginC.plugin_get_name handle h)
  | Get_manufacturer_id =>
      returning VText (PluginC.plugin_get_manufacturer_id handle h)
  | Get_type => returning VText (PluginC.plugin_get_type handle h)
  | Get_subtype => returning VText (PluginC.plugin_get_subtype handle h)
  | Get_parameters_count =>
      returning VSize (PluginC.plugin_get_parameters_count handle h)
  | Get_parameter index =>
      returning (fun r => VHandle (fst r))
                (PluginC.plugin_get_parameter handle index h)
  | Get_display_name =>
      returning VText (PluginC.parameter_get_display_name handle h)
  | Get_default_value =>
      returning VFloat (PluginC.parameter_get_default_value handle h)
  | Get_current_value =>
      returning VFloat (PluginC.parameter_get_current_value handle h)
  | Get_address => returning VInt (PluginC.parameter_get_address handle h)
  | Get_max_value =>
      returning VFloat (PluginC.parameter_get_max_value handle h)
  | Get_min_value =>
      returning VFloat (PluginC.parameter_get_min_value handle h)
  | Get_unit => returning VText (PluginC.parameter_get_unit handle h)
  | Get_identifier =>
      returning VText (PluginC.parameter_get_identifier handle h)
  | Get_can_ramp => returning VInt (PluginC.parameter_get_can_ramp handle h)
  | Get_is_writable =>
      returning VInt (PluginC.parameter_get_is_writable handle h)
  | Get_raw_flags => returning VInt (PluginC.parameter_get_raw_flags handle h)
  | Get_indexed_values_count =>
      returning VSize (PluginC.parameter_get_indexed_values_count handle h)
  | Get_indexed_value index =>
      returning VText (PluginC.parameter_get_indexed_value handle index h)
  | Get_indexed_values_source =>
      returning VText (PluginC.parameter_get_indexed_values_source handle h)
  end.

(** The heaps a caller can bring about through the boundary functions,
    starting with no object. *)
Inductive reachable : PluginC.heap -> Prop :=
  | reach_start : reachable ∅
  | reach_decode h data len error_msg handle err h' :
      reachable h ->
      PluginC.plugin_decode data len error_msg h = Done (handle, err, h') ->
      reachable h'
  | reach_encode h handle out_data error_msg n out err h' :
      reachable h ->
      PluginC.plugin_encode handle out_data error_msg h
        = Done (n, out, err, h') ->
      reachable h'
  | reach_free h handle h' :
      reachable h ->
      PluginC.plugin_free handle h = Done h' ->
      reachable h'
  | reach_get_parameter h handle index ph h' :
      reachable h ->
      PluginC.plugin_get_parameter handle index h = Done (ph, h') ->
      reachable h'.

(* ===================================================================== *)
(** ** Specification vocabulary                                         *)
(* ===================================================================== *)

(** The definitions the statements below are written with: the byte
    strings the codec works on, the conditions on values, and the sample
    values.  None of them is part of the program. *)

(** *** Little-endian words *)

(** The two, four and eight bytes the encoder pushes for a word [u]. *)
Definition le16 (u : Z) : list byte :=
  [cast_uint8 u; cast_uint8 (Z.shiftr u 8)].
Definition le32 (u : Z) : list byte :=
  [cast_uint8 u; cast_uint8 (Z.shiftr u 8);
   cast_uint8 (Z.shiftr u 16); cast_uint8 (Z.shiftr u 24)].
Definition le64 (u : Z) : list byte :=
  [cast_uint8 u; cast_uint8 (Z.shiftr u 8);
   cast_uint8 (Z.shiftr u 16); cast_uint8 (Z.shiftr u 24);
   cast_uint8 (Z.shiftr u 32); cast_uint8 (Z.shiftr u 40);
   cast_uint8 (Z.shiftr u 48); cast_uint8 (Z.shiftr u 56)].

Local Open Scope nat_scope.

(** *** The decoder's state *)

Definition set_pos (d : Decoder) (p : nat) : Decoder :=
  {| data := data d; size := size d; pos := p |}.

(** The caller's contract: [size] bytes are readable at [data]. *)
Definition readable (d : Decoder) : Prop := size d <= length (data d).

Definition byte_at (d : Decoder) (k : nat) : byte :=
  default x00 (data d !! (pos d + k)).

Definition word16_at (d : Decoder) : Z :=
  cast_uint16 (Z.lor (byte_to_Z (byte_at d 0))
                     (Z.shiftl (byte_to_Z (byte_at d 1)) 8)).

Definition word32_at (d : Decoder) : Z :=
  cast_uint32
    (Z.lor (Z.lor (Z.lor (byte_to_Z (byte_at d 0))
                         (Z.shiftl (byte_to_Z (byte_at d 1)) 8))
                  (Z.shiftl (byte_to_Z (byte_at d 2)) 16))
           (Z.shiftl (byte_to_Z (byte_at d 3)) 24)).

Definition word64_at (d : Decoder) : Z :=
  cast_uint64
    (Z.lor (Z.lor (Z.lor (Z.lor (Z.lor (Z.lor (Z.lor
       (byte_to_Z (byte_at d 0))
       (Z.shiftl (byte_to_Z (byte_at d 1)) 8))
       (Z.shiftl (byte_to_Z (byte_at d 2)) 16))
       (Z.shiftl (byte_to_Z (byte_at d 3)) 24))
       (Z.shiftl (byte_to_Z (byte_at d 4)) 32))
       (Z.shiftl (byte_to_Z (byte_at d 5)) 40))
       (Z.shiftl (byte_to_Z (byte_at d 6)) 48))
       (Z.shiftl (byte_to_Z (byte_at d 7)) 56)).

(** *** Reading and writing a known byte string *)

(** The bytes [bs] lie at the cursor, inside the supplied length. *)
Definition window (d : Decoder) (bs : list byte) : Prop :=
  pos d + length bs <= size d /\ readable d /\
  take (length bs) (drop (pos d) (data d)) = bs.

(** [m] consumes exactly [bs] and returns [a]. *)
Definition reads {A} (m : M A) (bs : list byte) (a : A) : Prop :=
  forall d, window d bs -> m d = Ok a (set_pos d (pos d + length bs)).

(** The wire form of an element count and of a text. *)
Definition layout_count (n : nat) : list byte :=
  le16 (cast_uint16 (Z.of_nat n)).

Definition layout_string (s : std_string) : list byte :=
  layout_count (length s) ++ s.

(** A size that a [uint16_t] holds. *)
Definition fits16 (n : nat) : bool := (Z.of_nat n <=? 65535)%Z.

(** The wire form of a sequence whose element layout may depend on the
    element's index (counted from [k]). *)
Fixpoint layout_seq {A} (L : nat -> A -> list byte) (k : nat) (xs : list A)
  : list byte :=
  match xs with
  | [] => []
  | x :: xs' => L k x ++ layout_seq L (S k) xs'
  end.

(** *** The wire layout *)

(** The layout below is the one [encode_plugin_message] produces, except
    that the byte standing for a [true] boolean or for a present optional is
    left open: [flag_bytes] chooses it for each of the four flags of a
    parameter.  The encoder always chooses [0x01]. *)
Record flag_bytes := mkFlags {
  on_CanRamp : byte;
  on_IsWritable : byte;
  on_IndexedValues : byte;
  on_IndexedValuesSource : byte
}.

Definition canonical_flags : flag_bytes := mkFlags x01 x01 x01 x01.

Definition nonzero_flags (t : flag_bytes) : Prop :=
  on_CanRamp t <> x00 /\ on_IsWritable t <> x00 /\
  on_IndexedValues t <> x00 /\ on_IndexedValuesSource t <> x00.

Definition flag (t : byte) (v : bool) : byte := if v then t else x00.

Definition layout_int32 (v : Z) : list byte := le32 (cast_uint32 v).
Definition layout_int64 (v : Z) : list byte := le64 (cast_uint64 v).
Definition layout_float32 (v : float32) : list byte :=
  le32 (cast_uint32 (cast_int32 (float_bits v))).

Definition layout_indexed_values (t : byte) (o : option (list std_string))
  : list byte :=
  match o with
  | Some v => [t] ++ layout_count (length v)
                  ++ layout_seq (fun _ => layout_string) 0 v
  | None => [x00]
  end.

Definition layout_indexed_values_source (t : byte) (o : option std_string)
  : list byte :=
  match o with
  | Some s => [t] ++ layout_string s
  | None => [x00]
  end.

Definition layout_parameter (t : flag_bytes) (p : Parameter_) : list byte :=
  layout_string (DisplayName p) ++
  layout_float32 (DefaultValue p) ++
  layout_float32 (CurrentValue p) ++
  layout_int32 (Address p) ++
  layout_float32 (MaxValue p) ++
  layout_float32 (MinValue p) ++
  layout_string (Unit p) ++
  layout_string (Identifier p) ++
  [flag (on_CanRamp t) (CanRamp p)] ++
  [flag (on_IsWritable t) (IsWritable p)] ++
  layout_int64 (RawFlags p) ++
  layout_indexed_values (on_IndexedValues t) (IndexedValues p) ++
  layout_indexed_values_source (on_IndexedValuesSource t)
                               (IndexedValuesSource p).

(** [t i] chooses the flag bytes of the plugin's [i]-th parameter. *)
Definition layout_plugin (t : nat -> flag_bytes) (p : Plugin) : list byte :=
  layout_string (Name p) ++
  layout_string (ManufacturerID p) ++
  layout_string (Type_ p) ++
  layout_string (Subtype p) ++
  layout_count (length (Parameters p)) ++
  layout_seq (fun i => layout_parameter (t i)) 0 (Parameters p).

(** [t j i] chooses the flag bytes of parameter [i] of plugin [j]. *)
Definition layout_message (t : nat -> nat -> flag_bytes) (m : list Plugin)
  : list byte :=
  layout_count (length m) ++ layout_seq (fun j => layout_plugin (t j)) 0 m.

(** *** The representable domain *)

(** Text lengths and element counts fit 16 bits. *)
Definition parameter_within_limits (p : Parameter_) : bool :=
  fits16 (length (DisplayName p)) &&
  fits16 (length (Unit p)) &&
  fits16 (length (Identifier p)) &&
  match IndexedValues p with
  | Some v => fits16 (length v) && forallb (fun s => fits16 (length s)) v
  | None => true
  end &&
  match IndexedValuesSource p with
  | Some s => fits16 (length s)
  | None => true
  end.

Definition plugin_within_limits (p : Plugin) : bool :=
  fits16 (length (Name p)) &&
  fits16 (length (ManufacturerID p)) &&
  fits16 (length (Type_ p)) &&
  fits16 (length (Subtype p)) &&
  fits16 (length (Parameters p)) &&
  forallb parameter_within_limits (Parameters p).

Definition within_limits (m : list Plugin) : bool :=
  fits16 (length m) && forallb plugin_within_limits m.

(** The numeric fields hold values of their C++ types: a 32-bit pattern
    for each [float], an [int32_t] for [Address], an [int64_t] for
    [RawFlags]. *)
Definition parameter_well_typed (p : Parameter_) : bool :=
  is_uint32 (DefaultValue p) &&
  is_uint32 (CurrentValue p) &&
  is_int32 (Address p) &&
  is_uint32 (MaxValue p) &&
  is_uint32 (MinValue p) &&
  is_int64 (RawFlags p).

Definition plugin_well_typed (p : Plugin) : bool :=
  forallb parameter_well_typed (Parameters p).

Definition well_typed (m : list Plugin) : bool := forallb plugin_well_typed m.

(** [w] appends exactly [bs] to the buffer. *)
Definition emits (w : Encoder -> Encoder) (bs : list byte) : Prop :=
  forall enc, buffer (w enc) = buffer enc ++ bs.

(** *** Bounds safety and stability under extension *)

(** [e] extends [d]: the same cursor, a supplied length at least as large,
    and the same bytes below [size d]. *)
Definition agree (d e : Decoder) : Prop :=
  pos e = pos d /\ size d <= size e /\ readable e /\
  take (size d) (data e) = take (size d) (data d).

(** Started inside a readable buffer, [m] never reads at or beyond [size];
    it throws nothing but the insufficient-data error; and when it returns,
    the cursor is still inside the buffer and [m] does the same on every
    extension of the buffer. *)
Definition sound {A} (m : M A) : Prop :=
  forall d, readable d -> pos d <= size d ->
    match m d with
    | Ok a d' => exists p, d' = set_pos d p /\ pos d <= p <= size d /\
                 forall e, agree d e -> m e = Ok a (set_pos e p)
    | Throw w => w = insufficient_data
    | OutOfBounds => False
    end.

(** *** Sample values *)

Definition str (s : string) : std_string := String.list_byte_of_string s.

Definition sample_plugin : Plugin :=
  {| Name := str "Foo"; ManufacturerID := str "MFR1"; Type_ := str "aufx";
     Subtype := str "abcd"; Parameters := [] |}.

(** A parameter with the [float] patterns of 1.0, a NaN, -infinity and
    0.0, a negative [Address] and negative [RawFlags]. *)
Definition sample_parameter : Parameter_ :=
  {| DisplayName := str "Gain"; DefaultValue := 0x3f800000%Z;
     CurrentValue := 0x7fc00000%Z; Address := (-7)%Z;
     MaxValue := 0xff800000%Z; MinValue := 0%Z;
     Unit := str "dB"; Identifier := str "gain";
     CanRamp := true; IsWritable := false; RawFlags := (-2)%Z;
     IndexedValues := Some [str "a"; str "b"; str "c"];
     IndexedValuesSource := None |}.

Definition sample_message : list Plugin :=
  [ {| Name := str "Foo"; ManufacturerID := str "MFR1"; Type_ := str "aufx";
       Subtype := str "abcd"; Parameters := [sample_parameter] |} ].

Definition abc : list std_string := [str "a"; str "b"; str "c"].

(** [p] with its two optional fields replaced. *)
Definition with_optionals (p : Parameter_)
    (iv : option (list std_string)) (ivs : option std_string) : Parameter_ :=
  {| DisplayName := DisplayName p;
     DefaultValue := DefaultValue p;
     CurrentValue := CurrentValue p;
     Address := Address p;
     MaxValue := MaxValue p;
     MinValue := MinValue p;
     Unit := Unit p;
     Identifier := Identifier p;
     CanRamp := CanRamp p;
     IsWritable := IsWritable p;
     RawFlags := RawFlags p;
     IndexedValues := iv;
     IndexedValuesSource := ivs |}.

(** [pl] with [q] as its only parameter. *)
Definition with_parameter (pl : Plugin) (q : Parameter_) : Plugin :=
  {| Name := Name pl; ManufacturerID := ManufacturerID pl;
     Type_ := Type_ pl; Subtype := Subtype pl; Parameters := [q] |}.

(** A message that puts the text [s] in text fields of a plugin and of a
    parameter, the value [v] in [RawFlags], and has sequences of no
    element: an [IndexedValues] that is present and empty, and a second
    plugin without parameters. *)
Definition boundary_message (s : std_string) (v : Z) : list Plugin :=
  [ {| Name := s; ManufacturerID := []; Type_ := s; Subtype := [];
       Parameters :=
         [ {| DisplayName := s; DefaultValue := 0%Z; CurrentValue := 0%Z;
              Address := 0%Z; MaxValue := 0%Z; MinValue := 0%Z;
              Unit := []; Identifier := s;
              CanRamp := false; IsWritable := false; RawFlags := v;
              IndexedValues := Some [];
              IndexedValuesSource := Some s |} ] |};
    {| Name := []; ManufacturerID := s; Type_ := []; Subtype := s;
       Parameters := [] |} ].

Definition loud_flags : flag_bytes := mkFlags xff x02 x80 x7f.

(** What each accessor returns for no value: a null text, a zero count or
    number, a null handle. *)
Definition sentinel (g : accessor) : value :=
  match g with
  | Get_name | Get_manufacturer_id | Get_type | Get_subtype
  | Get_display_name | Get_unit | Get_identifier
  | Get_indexed_value _ | Get_indexed_values_source => VText None
  | Get_parameters_count | Get_indexed_values_count => VSize 0
  | Get_default_value | Get_current_value | Get_max_value | Get_min_value =>
      VFloat 0%Z
  | Get_address | Get_can_ramp | Get_is_writable | Get_raw_flags => VInt 0%Z
  | Get_parameter _ => VHandle nullptr
  end.

Definition sample_impl : PluginC.PluginHandleImpl :=
  {| PluginC.plugins := sample_message; PluginC.error := "";
     PluginC.encoded_data := [] |}.

Definition sample_items : MessageC.MessageHandleImpl :=
  {| MessageC.items := sample_message; MessageC.error := "";
     MessageC.encoded_data := [] |}.

(** The heap after [plugin_decode] of the sample message, and after
    [plugin_get_parameter] of its parameter 0. *)
Definition heap1 : PluginC.heap :=
  {[ 1%positive := PluginC.PluginObj sample_impl ]}.

Definition heap2 : PluginC.heap :=
  <[ 2%positive := PluginC.ParameterObj
                     {| PluginC.owner := 1; PluginC.index := 0 |} ]> heap1.

Definition mheap1 : MessageC.heap := {[ 1%positive := sample_items ]}.

(** Thirteen bytes: a count of one plugin, four empty texts, a count of no
    parameter, and one stray byte. *)
Definition stray_bytes : list byte :=
  [x01; x00; x00; x00; x00; x00; x00; x00; x00; x00; x00; x00; xff].

(** *** Encoded sizes *)

(** The number of bytes a text, an optional, a parameter, a plugin and a
    message take on the wire. *)
Definition string_size (s : std_string) : nat := 2 + length s.

Definition indexed_values_size (o : option (list std_string)) : nat :=
  match o with
  | Some v => 1 + (2 + sum_list (map string_size v))
  | None => 1
  end.

Definition indexed_values_source_size (o : option std_string) : nat :=
  match o with
  | Some s => 1 + string_size s
  | None => 1
  end.

Definition parameter_size (p : Parameter_) : nat :=
  string_size (DisplayName p) + 4 + 4 + 4 + 4 + 4 +
  string_size (Unit p) + string_size (Identifier p) + 1 + 1 + 8 +
  indexed_values_size (IndexedValues p) +
  indexed_values_source_size (IndexedValuesSource p).

Definition plugin_size (p : Plugin) : nat :=
  string_size (Name p) + string_size (ManufacturerID p) +
  string_size (Type_ p) + string_size (Subtype p) +
  2 + sum_list (map parameter_size (Parameters p)).

Definition message_size (m : list Plugin) : nat :=
  2 + sum_list (map plugin_size m).

(** *** What a decoder returns *)

(** Whatever [m] returns, from a cursor inside a readable buffer,
    satisfies [Q]. *)
Definition ensures {A} (m : M A) (Q : A -> Prop) : Prop :=
  forall d a d', readable d -> pos d <= size d -> m d = Ok a d' -> Q a.

(** *** Steps of the boundary *)

(** One completed call of a boundary function that can change the heap. *)
Inductive step : PluginC.heap -> PluginC.heap -> Prop :=
  | step_decode h data len error_msg handle err h' :
      PluginC.plugin_decode data len error_msg h = Done (handle, err, h') ->
      step h h'
  | step_encode h handle out_data error_msg n out err h' :
      PluginC.plugin_encode handle out_data error_msg h
        = Done (n, out, err, h') ->
      step h h'
  | step_free h handle h' :
      PluginC.plugin_free handle h = Done h' ->
      step h h'
  | step_get_parameter h handle index ph h' :
      PluginC.plugin_get_parameter handle index h = Done (ph, h') ->
      step h h'.

(** The accessors that take a plugin handle. *)
Definition on_plugin_handle (g : accessor) : bool :=
  match g with
  | Get_name | Get_manufacturer_id | Get_type | Get_subtype
  | Get_parameters_count | Get_parameter _ => true
  | _ => false
  end.

(** What a parameter accessor returns for the parameter [q]. *)
Definition field_of (g : accessor) (q : Parameter_) : value :=
  match g with
  | Get_display_name => VText (Some (DisplayName q))
  | Get_default_value => VFloat (DefaultValue q)
  | Get_current_value => VFloat (CurrentValue q)
  | Get_address => VInt (Address q)
  | Get_max_value => VFloat (MaxValue q)
  | Get_min_value => VFloat (MinValue q)
  | Get_unit => VText (Some (Unit q))
  | Get_identifier => VText (Some (Identifier q))
  | Get_can_ramp => VInt (if CanRamp q then 1 else 0)%Z
  | Get_is_writable => VInt (if IsWritable q then 1 else 0)%Z
  | Get_raw_flags => VInt (RawFlags q)
  | Get_indexed_values_count =>
      VSize (match IndexedValues q with Some v => length v | None => 0 end)
  | Get_indexed_value j =>
      VText (match IndexedValues q with Some v => v !! j | None => None end)
  | Get_indexed_values_source => VText (IndexedValuesSource q)
  | _ => VText None
  end.

Local Open Scope Z_scope.

(* ===================================================================== *)
(** ** Bytes and little-endian words                                       *)
(* ===================================================================== *)

Lemma byte_to_Z_range (b : byte) : 0 <= byte_to_Z b < 2 ^ 8.
Proof.
  unfold byte_to_Z. pose proof (Byte.to_N_bounded b). lia.
Qed.

Lemma byte_to_Z_cast_uint8 (z : Z) : byte_to_Z (cast_uint8 z) = z mod 2 ^ 8.
Proof.
  unfold byte_to_Z, cast_uint8.
  assert (Hr : 0 <= z mod 2 ^ 8 < 2 ^ 8) by (apply Z.mod_pos_bound; lia).
  destruct (Byte.of_N (Z.to_N (z mod 2 ^ 8))) as [b|] eqn:E.
  - apply Byte.to_of_N in E. simpl. rewrite E. lia.
  - apply Byte.of_N_None_iff in E. lia.
Qed.

Lemma cast_uint8_byte_to_Z (b : byte) : cast_uint8 (byte_to_Z b) = b.
Proof.
  unfold cast_uint8, byte_to_Z.
  rewrite Z.mod_small by (pose proof (Byte.to_N_bounded b); lia).
  rewrite N2Z.id, Byte.of_to_N. reflexivity.
Qed.

(** One more byte [k .. k+7] of [u] joined under the bytes below it. *)
Lemma join_step (u k k' : Z) :
  0 <= k -> k' = k + 8 ->
  Z.lor (u mod 2 ^ k) (Z.shiftl (Z.shiftr u k mod 2 ^ 8) k) = u mod 2 ^ k'.
Proof.
  intros Hk ->. Z.bitblast.
Qed.

Lemma join16 (u : Z) :
  0 <= u < 2 ^ 16 ->
  cast_uint16 (Z.lor (u mod 2 ^ 8) (Z.shiftl (Z.shiftr u 8 mod 2 ^ 8) 8)) = u.
Proof.
  intros Hu. unfold cast_uint16.
  rewrite (join_step u 8 16) by lia.
  rewrite Z.mod_mod by lia. apply Z.mod_small; lia.
Qed.

Lemma join32 (u : Z) :
  0 <= u < 2 ^ 32 ->
  cast_uint32
    (Z.lor (Z.lor (Z.lor (u mod 2 ^ 8)
                         (Z.shiftl (Z.shiftr u 8 mod 2 ^ 8) 8))
                  (Z.shiftl (Z.shiftr u 16 mod 2 ^ 8) 16))
           (Z.shiftl (Z.shiftr u 24 mod 2 ^ 8) 24)) = u.
Proof.
  intros Hu. unfold cast_uint32.
  rewrite (join_step u 8 16), (join_step u 16 24), (join_step u 24 32) by lia.
  rewrite Z.mod_mod by lia. apply Z.mod_small; lia.
Qed.

Lemma join64 (u : Z) :
  0 <= u < 2 ^ 64 ->
  cast_uint64
    (Z.lor (Z.lor (Z.lor (Z.lor (Z.lor (Z.lor (Z.lor
       (u mod 2 ^ 8)
       (Z.shiftl (Z.shiftr u 8 mod 2 ^ 8) 8))
       (Z.shiftl (Z.shiftr u 16 mod 2 ^ 8) 16))
       (Z.shiftl (Z.shiftr u 24 mod 2 ^ 8) 24))
       (Z.shiftl (Z.shiftr u 32 mod 2 ^ 8) 32))
       (Z.shiftl (Z.shiftr u 40 mod 2 ^ 8) 40))
       (Z.shiftl (Z.shiftr u 48 mod 2 ^ 8) 48))
       (Z.shiftl (Z.shiftr u 56 mod 2 ^ 8) 56)) = u.
Proof.
  intros Hu. unfold cast_uint64.
  rewrite (join_step u 8 16), (join_step u 16 24), (join_step u 24 32),
    (join_step u 32 40), (join_step u 40 48), (join_step u 48 56),
    (join_step u 56 64) by lia.
  rewrite Z.mod_mod by lia. apply Z.mod_small; lia.
Qed.

Lemma cast_uint32_range (v : Z) : 0 <= cast_uint32 v < 2 ^ 32.
Proof. unfold cast_uint32. apply Z.mod_pos_bound. lia. Qed.

Lemma cast_uint64_range (v : Z) : 0 <= cast_uint64 v < 2 ^ 64.
Proof. unfold cast_uint64. apply Z.mod_pos_bound. lia. Qed.

Lemma cast_uint16_range (v : Z) : 0 <= cast_uint16 v < 2 ^ 16.
Proof. unfold cast_uint16. apply Z.mod_pos_bound. lia. Qed.

Lemma cast_int32_uint32 (v : Z) :
  - 2 ^ 31 <= v < 2 ^ 31 -> cast_int32 (cast_uint32 v) = v.
Proof.
  intros Hv. unfold cast_int32, cast_uint32.
  rewrite Z.mod_mod by lia.
  destruct (Z.ltb_spec (v mod 2 ^ 32) (2 ^ 31));
    Z.div_mod_to_equations; lia.
Qed.

Lemma cast_int64_uint64 (v : Z) :
  - 2 ^ 63 <= v < 2 ^ 63 -> cast_int64 (cast_uint64 v) = v.
Proof.
  intros Hv. unfold cast_int64, cast_uint64.
  rewrite Z.mod_mod by lia.
  destruct (Z.ltb_spec (v mod 2 ^ 64) (2 ^ 63));
    Z.div_mod_to_equations; lia.
Qed.

Lemma cast_uint32_int32 (u : Z) :
  0 <= u < 2 ^ 32 -> cast_uint32 (cast_int32 u) = u.
Proof.
  intros Hu. unfold cast_int32, cast_uint32.
  rewrite (Z.mod_small u) by lia.
  destruct (Z.ltb_spec u (2 ^ 31)).
  - apply Z.mod_small. lia.
  - Z.div_mod_to_equations; lia.
Qed.

(* ===================================================================== *)
(** ** What the decoder primitives compute                                 *)
(* ===================================================================== *)

Local Open Scope nat_scope.

Lemma set_pos_id (d : Decoder) : set_pos d (pos d) = d.
Proof. destruct d; reflexivity. Qed.

Lemma set_pos_set_pos (d : Decoder) (p q : nat) :
  set_pos (set_pos d p) q = set_pos d q.
Proof. reflexivity. Qed.

Lemma load_ok (d : Decoder) (k : nat) :
  readable d -> pos d + k < size d -> load k d = Ok (byte_at d k) d.
Proof.
  unfold readable, load, byte_at. intros Hr Hk.
  destruct (Nat.ltb_spec (pos d + k) (size d)); [|lia].
  destruct (data d !! (pos d + k)) as [b|] eqn:E; [reflexivity|].
  apply lookup_ge_None in E. lia.
Qed.

Lemma load_range_ok (d : Decoder) (n : nat) :
  readable d -> pos d + n <= size d ->
  load_range n d = Ok (take n (drop (pos d) (data d))) d.
Proof.
  unfold readable, load_range. intros Hr Hn.
  destruct (Nat.leb_spec (pos d + n) (size d)); [|lia].
  destruct (Nat.leb_spec (pos d + n) (length (data d))); [|lia].
  reflexivity.
Qed.

Ltac check_cases d n :=
  unfold bind at 1, check_remaining at 1;
  destruct (Nat.ltb_spec (size d) (pos d + n)); [reflexivity|].

Ltac do_load :=
  unfold bind at 1; rewrite load_ok by (assumption || lia).

Lemma read_bool_spec (d : Decoder) :
  readable d ->
  read_bool d =
    if size d <? pos d + 1 then Throw insufficient_data
    else Ok (negb (Byte.eqb (byte_at d 0) x00)) (set_pos d (pos d + 1)).
Proof.
  intros Hr. unfold read_bool. check_cases d 1. do_load. reflexivity.
Qed.

Lemma read_array_length_spec (d : Decoder) :
  readable d ->
  read_array_length d =
    if size d <? pos d + 2 then Throw insufficient_data
    else Ok (word16_at d) (set_pos d (pos d + 2)).
Proof.
  intros Hr. unfold read_array_length. check_cases d 2.
  do 2 do_load. reflexivity.
Qed.

Lemma read_int32_spec (d : Decoder) :
  readable d ->
  read_int32 d =
    if size d <? pos d + 4 then Throw insufficient_data
    else Ok (cast_int32 (word32_at d)) (set_pos d (pos d + 4)).
Proof.
  intros Hr. unfold read_int32. check_cases d 4.
  do 4 do_load. reflexivity.
Qed.

Lemma read_int64_spec (d : Decoder) :
  readable d ->
  read_int64 d =
    if size d <? pos d + 8 then Throw insufficient_data
    else Ok (cast_int64 (word64_at d)) (set_pos d (pos d + 8)).
Proof.
  intros Hr. unfold read_int64. check_cases d 8.
  do 8 do_load. reflexivity.
Qed.

Lemma read_float32_spec (d : Decoder) :
  readable d ->
  read_float32 d =
    if size d <? pos d + 4 then Throw insufficient_data
    else Ok (bits_float (cast_uint32 (cast_int32 (word32_at d))))
            (set_pos d (pos d + 4)).
Proof.
  intros Hr. unfold read_float32, bind. rewrite read_int32_spec by assumption.
  destruct (size d <? pos d + 4); reflexivity.
Qed.

Lemma read_string_spec (d : Decoder) :
  readable d ->
  read_string d =
    if size d <? pos d + 2 then Throw insufficient_data
    else let len := Z.to_nat (word16_at d) in
         if size d <? pos d + 2 + len then Throw insufficient_data
         else Ok (take len (drop (pos d + 2) (data d)))
                 (set_pos d (pos d + 2 + len)).
Proof.
  intros Hr. unfold read_string. check_cases d 2.
  do 2 do_load. fold (word16_at d). cbv zeta.
  unfold bind at 1, advance at 1.
  unfold bind at 1, check_remaining at 1. cbn [size pos data].
  destruct (Nat.ltb_spec (size d) (pos d + 2 + Z.to_nat (word16_at d)));
    [reflexivity|].
  unfold bind at 1.
  rewrite load_range_ok by (unfold readable in *; cbn [size pos data]; lia).
  reflexivity.
Qed.

(* ===================================================================== *)
(** ** Reading a known byte string                                         *)
(* ===================================================================== *)

Lemma window_app (d : Decoder) (bs1 bs2 : list byte) :
  window d (bs1 ++ bs2) ->
  window d bs1 /\ window (set_pos d (pos d + length bs1)) bs2.
Proof.
  unfold window, readable. rewrite length_app. cbn [pos size data set_pos].
  intros (Hle & Hr & Ht). repeat split; try lia.
  - rewrite <- (take_app_length bs1 bs2) at 2. rewrite <- Ht.
    rewrite take_take. f_equal. lia.
  - rewrite <- (drop_app_length bs1 bs2) at 2. rewrite <- Ht.
    rewrite <- drop_drop. apply take_drop_commute.
Qed.

Lemma window_byte_at (d : Decoder) (bs : list byte) (k : nat) (b : byte) :
  window d bs -> bs !! k = Some b -> byte_at d k = b.
Proof.
  intros (Hle & Hr & Ht) Hk. unfold byte_at.
  rewrite <- Ht in Hk. apply lookup_take_Some in Hk as [Hk _].
  rewrite lookup_drop in Hk. rewrite Hk. reflexivity.
Qed.

Lemma reads_ret {A} (a : A) : reads (ret a) [] a.
Proof.
  intros d _. unfold ret. cbn [length]. rewrite Nat.add_0_r, set_pos_id.
  reflexivity.
Qed.

Lemma reads_bind {A B} (m : M A) (f : A -> M B) bs1 bs2 (a : A) (b : B) :
  reads m bs1 a -> reads (f a) bs2 b -> reads (bind m f) (bs1 ++ bs2) b.
Proof.
  intros Hm Hf d Hw. apply window_app in Hw as [H1 H2].
  unfold bind. rewrite (Hm d H1), (Hf _ H2).
  rewrite set_pos_set_pos, length_app. cbn [pos set_pos].
  f_equal. f_equal. lia.
Qed.

(** A bind whose continuation consumes nothing more. *)
Lemma reads_bind_ret {A B} (m : M A) (f : A -> M B) bs (a : A) (b : B) :
  reads m bs a -> reads (f a) [] b -> reads (bind m f) bs b.
Proof.
  intros Hm Hf. rewrite <- (app_nil_r bs). eapply reads_bind; eassumption.
Qed.

Lemma reads_read_bool (b : byte) :
  reads read_bool [b] (negb (Byte.eqb b x00)).
Proof.
  intros d Hw. pose proof Hw as (Hle & Hr & _). cbn [length] in *.
  rewrite read_bool_spec by assumption.
  destruct (Nat.ltb_spec (size d) (pos d + 1)); [lia|].
  rewrite (window_byte_at d [b] 0 b) by (assumption || reflexivity).
  reflexivity.
Qed.

Lemma window_word16 (d : Decoder) (u : Z) (rest : list byte) :
  (0 <= u < 2 ^ 16)%Z -> window d (le16 u ++ rest) -> word16_at d = u.
Proof.
  intros Hu Hw. unfold word16_at.
  rewrite (window_byte_at d _ 0 _ Hw eq_refl).
  rewrite (window_byte_at d _ 1 _ Hw eq_refl).
  rewrite !byte_to_Z_cast_uint8. apply join16. assumption.
Qed.

Lemma window_word32 (d : Decoder) (u : Z) :
  (0 <= u < 2 ^ 32)%Z -> window d (le32 u) -> word32_at d = u.
Proof.
  intros Hu Hw. unfold word32_at.
  rewrite (window_byte_at d _ 0 _ Hw eq_refl).
  rewrite (window_byte_at d _ 1 _ Hw eq_refl).
  rewrite (window_byte_at d _ 2 _ Hw eq_refl).
  rewrite (window_byte_at d _ 3 _ Hw eq_refl).
  rewrite !byte_to_Z_cast_uint8. apply join32. assumption.
Qed.

Lemma window_word64 (d : Decoder) (u : Z) :
  (0 <= u < 2 ^ 64)%Z -> window d (le64 u) -> word64_at d = u.
Proof.
  intros Hu Hw. unfold word64_at.
  rewrite (window_byte_at d _ 0 _ Hw eq_refl).
  rewrite (window_byte_at d _ 1 _ Hw eq_refl).
  rewrite (window_byte_at d _ 2 _ Hw eq_refl).
  rewrite (window_byte_at d _ 3 _ Hw eq_refl).
  rewrite (window_byte_at d _ 4 _ Hw eq_refl).
  rewrite (window_byte_at d _ 5 _ Hw eq_refl).
  rewrite (window_byte_at d _ 6 _ Hw eq_refl).
  rewrite (window_byte_at d _ 7 _ Hw eq_refl).
  rewrite !byte_to_Z_cast_uint8. apply join64. assumption.
Qed.

Lemma reads_read_int32 (v : Z) :
  (- 2 ^ 31 <= v < 2 ^ 31)%Z -> reads read_int32 (le32 (cast_uint32 v)) v.
Proof.
  intros Hv d Hw. pose proof Hw as (Hle & Hr & _). cbn [length le32] in Hle.
  rewrite read_int32_spec by assumption.
  destruct (Nat.ltb_spec (size d) (pos d + 4)); [lia|].
  rewrite (window_word32 d (cast_uint32 v)) by
    (assumption || apply cast_uint32_range).
  rewrite cast_int32_uint32 by assumption. reflexivity.
Qed.

Lemma reads_read_int64 (v : Z) :
  (- 2 ^ 63 <= v < 2 ^ 63)%Z -> reads read_int64 (le64 (cast_uint64 v)) v.
Proof.
  intros Hv d Hw. pose proof Hw as (Hle & Hr & _). cbn [length le64] in Hle.
  rewrite read_int64_spec by assumption.
  destruct (Nat.ltb_spec (size d) (pos d + 8)); [lia|].
  rewrite (window_word64 d (cast_uint64 v)) by
    (assumption || apply cast_uint64_range).
  rewrite cast_int64_uint64 by assumption. reflexivity.
Qed.

Lemma reads_read_float32 (v : float32) :
  (0 <= v < 2 ^ 32)%Z ->
  reads read_float32 (le32 (cast_uint32 (cast_int32 (float_bits v)))) v.
Proof.
  intros Hv d Hw. pose proof Hw as (Hle & Hr & _). cbn [length le32] in Hle.
  rewrite read_float32_spec by assumption.
  destruct (Nat.ltb_spec (size d) (pos d + 4)); [lia|].
  unfold float_bits in *. rewrite cast_uint32_int32 in * by assumption.
  rewrite (window_word32 d v) by assumption.
  rewrite cast_uint32_int32 by assumption. reflexivity.
Qed.

Lemma cast_uint16_small (n : nat) :
  fits16 n = true -> cast_uint16 (Z.of_nat n) = Z.of_nat n.
Proof.
  unfold fits16. intros Hn%Z.leb_le. unfold cast_uint16.
  apply Z.mod_small. lia.
Qed.

Lemma reads_read_array_length (n : nat) :
  fits16 n = true -> reads read_array_length (layout_count n) (Z.of_nat n).
Proof.
  intros Hn d Hw. pose proof Hw as (Hle & Hr & _).
  unfold layout_count in *. cbn [length le16] in Hle.
  rewrite read_array_length_spec by assumption.
  destruct (Nat.ltb_spec (size d) (pos d + 2)); [lia|].
  rewrite <- (app_nil_r (le16 _)) in Hw.
  rewrite (window_word16 d _ [] (cast_uint16_range _) Hw).
  rewrite cast_uint16_small by assumption. reflexivity.
Qed.

Lemma reads_read_string (s : std_string) :
  fits16 (length s) = true -> reads read_string (layout_string s) s.
Proof.
  intros Hs d Hw. pose proof Hw as (Hle & Hr & Ht).
  unfold layout_string, layout_count in *.
  rewrite length_app in *. cbn [length le16] in Hle, Ht |- *.
  rewrite read_string_spec by assumption.
  destruct (Nat.ltb_spec (size d) (pos d + 2)); [lia|].
  rewrite (window_word16 d _ s (cast_uint16_range _) Hw).
  rewrite cast_uint16_small by assumption. cbv zeta. rewrite Nat2Z.id.
  destruct (Nat.ltb_spec (size d) (pos d + 2 + length s)); [lia|].
  apply window_app in Hw as [_ (_ & _ & Hs2)].
  cbn [length le16 pos data set_pos] in Hs2. rewrite Hs2.
  f_equal. f_equal. lia.
Qed.

Lemma reads_for_push {A} (body : M A) (L : nat -> A -> list byte)
      (P : A -> Prop) :
  (forall i x, P x -> reads body (L i x) x) ->
  forall xs k acc, Forall P xs ->
    reads (for_push (length xs) body acc) (layout_seq L k xs) (acc ++ xs).
Proof.
  intros Hbody xs. induction xs as [|x xs IH]; intros k acc HP.
  - cbn. rewrite app_nil_r. apply reads_ret.
  - apply Forall_cons in HP as [Hx Hxs]. cbn [length for_push layout_seq].
    eapply reads_bind; [apply Hbody; assumption|].
    rewrite (cons_middle x acc xs), app_assoc. apply IH. assumption.
Qed.

(* ===================================================================== *)
(** ** The representable domain                                            *)
(* ===================================================================== *)

Lemma is_uint32_true (z : Z) : is_uint32 z = true -> (0 <= z < 2 ^ 32)%Z.
Proof. unfold is_uint32. intros H%andb_true_iff. lia. Qed.

Lemma is_int32_true (z : Z) : is_int32 z = true -> (- 2 ^ 31 <= z < 2 ^ 31)%Z.
Proof. unfold is_int32. intros H%andb_true_iff. lia. Qed.

Lemma is_int64_true (z : Z) : is_int64 z = true -> (- 2 ^ 63 <= z < 2 ^ 63)%Z.
Proof. unfold is_int64. intros H%andb_true_iff. lia. Qed.

(* ===================================================================== *)
(** ** The decoder reads the layout back                                   *)
(* ===================================================================== *)

Lemma reads_flag (t : byte) (v : bool) :
  t <> x00 -> reads read_bool [flag t v] v.
Proof.
  intros Ht. pose proof (reads_read_bool (flag t v)) as H.
  replace (negb (Byte.eqb (flag t v) x00)) with v in H; [exact H|].
  destruct v; cbn [flag]; [|reflexivity].
  destruct (Byte.eqb t x00) eqn:E; [|reflexivity].
  apply Byte.byte_dec_bl in E. contradiction.
Qed.

Lemma reads_decode_indexed_values (t : byte) (o : option (list std_string)) :
  t <> x00 ->
  match o with
  | Some v => fits16 (length v) && forallb (fun s => fits16 (length s)) v
  | None => true
  end = true ->
  reads decode_indexed_values (layout_indexed_values t o) o.
Proof.
  intros Ht Ho. unfold decode_indexed_values, layout_indexed_values.
  destruct o as [v|].
  - apply andb_true_iff in Ho as [Hn Hv].
    eapply reads_bind; [apply (reads_flag t true Ht)|]. cbv iota.
    eapply reads_bind; [apply reads_read_array_length; assumption|].
    rewrite Nat2Z.id.
    eapply reads_bind_ret; [|apply reads_ret].
    apply (reads_for_push read_string (fun _ => layout_string)
             (fun s => fits16 (length s) = true)).
    + intros _ s Hs. apply reads_read_string. assumption.
    + apply Forall_forall. intros s Hs. rewrite forallb_forall in Hv.
      apply Hv. apply list_elem_of_In. assumption.
  - eapply reads_bind_ret; [apply (reads_flag t false Ht)|]. apply reads_ret.
Qed.

Lemma reads_decode_indexed_values_source (t : byte) (o : option std_string) :
  t <> x00 ->
  match o with Some s => fits16 (length s) | None => true end = true ->
  reads decode_indexed_values_source (layout_indexed_values_source t o) o.
Proof.
  intros Ht Ho. unfold decode_indexed_values_source,
    layout_indexed_values_source.
  destruct o as [s|].
  - eapply reads_bind; [apply (reads_flag t true Ht)|]. cbv iota.
    eapply reads_bind_ret; [apply reads_read_string; assumption|].
    apply reads_ret.
  - eapply reads_bind_ret; [apply (reads_flag t false Ht)|]. apply reads_ret.
Qed.

Lemma reads_decode_parameter (t : flag_bytes) (p : Parameter_) :
  nonzero_flags t ->
  parameter_within_limits p = true ->
  parameter_well_typed p = true ->
  reads decode_parameter (layout_parameter t p) p.
Proof.
  intros (Ht1 & Ht2 & Ht3 & Ht4) Hl Hw. destruct p.
  unfold parameter_within_limits, parameter_well_typed in *.
  cbn [DisplayName DefaultValue CurrentValue Address MaxValue MinValue Unit
       Identifier CanRamp IsWritable RawFlags IndexedValues
       IndexedValuesSource] in *.
  do 4 (apply andb_true_iff in Hl as [Hl ?]).
  do 5 (apply andb_true_iff in Hw as [Hw ?]).
  unfold decode_parameter, layout_parameter.
  cbn [DisplayName DefaultValue CurrentValue Address MaxValue MinValue Unit
       Identifier CanRamp IsWritable RawFlags IndexedValues
       IndexedValuesSource].
  eapply reads_bind; [apply reads_read_string; assumption|].
  eapply reads_bind; [apply reads_read_float32, is_uint32_true; assumption|].
  eapply reads_bind; [apply reads_read_float32, is_uint32_true; assumption|].
  eapply reads_bind; [apply reads_read_int32, is_int32_true; assumption|].
  eapply reads_bind; [apply reads_read_float32, is_uint32_true; assumption|].
  eapply reads_bind; [apply reads_read_float32, is_uint32_true; assumption|].
  eapply reads_bind; [apply reads_read_string; assumption|].
  eapply reads_bind; [apply reads_read_string; assumption|].
  eapply reads_bind; [apply reads_flag; assumption|].
  eapply reads_bind; [apply reads_flag; assumption|].
  eapply reads_bind; [apply reads_read_int64, is_int64_true; assumption|].
  eapply reads_bind; [apply reads_decode_indexed_values; assumption|].
  eapply reads_bind_ret;
    [apply reads_decode_indexed_values_source; assumption|].
  apply reads_ret.
Qed.

Lemma reads_decode_plugin (t : nat -> flag_bytes) (p : Plugin) :
  (forall i, nonzero_flags (t i)) ->
  plugin_within_limits p = true ->
  plugin_well_typed p = true ->
  reads decode_plugin (layout_plugin t p) p.
Proof.
  intros Ht Hl Hw. destruct p as [n m ty st ps].
  unfold plugin_within_limits, plugin_well_typed in *.
  cbn [Name ManufacturerID Type_ Subtype Parameters] in *.
  do 5 (apply andb_true_iff in Hl as [Hl ?]).
  unfold decode_plugin, layout_plugin.
  cbn [Name ManufacturerID Type_ Subtype Parameters].
  do 4 (eapply reads_bind; [apply reads_read_string; assumption|]).
  eapply reads_bind; [apply reads_read_array_length; assumption|].
  rewrite Nat2Z.id.
  eapply reads_bind_ret; [|apply reads_ret].
  apply (reads_for_push decode_parameter (fun i => layout_parameter (t i))
           (fun q => parameter_within_limits q = true /\
                     parameter_well_typed q = true)).
  - intros i q [Hq1 Hq2]. apply reads_decode_parameter; auto.
  - apply Forall_forall. intros q Hq%list_elem_of_In.
    rewrite forallb_forall in H, Hw. auto.
Qed.

Lemma reads_decode_message (t : nat -> nat -> flag_bytes) (m : list Plugin) :
  (forall j i, nonzero_flags (t j i)) ->
  within_limits m = true ->
  well_typed m = true ->
  reads decode_message (layout_message t m) m.
Proof.
  intros Ht Hl Hw. unfold within_limits, well_typed in *.
  apply andb_true_iff in Hl as [Hn Hl].
  unfold decode_message, layout_message.
  eapply reads_bind; [apply reads_read_array_length; assumption|].
  rewrite Nat2Z.id.
  apply (reads_for_push decode_plugin (fun j => layout_plugin (t j))
           (fun q => plugin_within_limits q = true /\
                     plugin_well_typed q = true) ltac:(
             intros j q [Hq1 Hq2]; apply reads_decode_plugin; auto) m 0 []).
  apply Forall_forall. intros q Hq%list_elem_of_In.
  rewrite forallb_forall in Hl, Hw. auto.
Qed.

(** Running the decoder from offset 0 over exactly the layout. *)
Lemma reads_run {A} (m : M A) (bs : list byte) (a : A) (mem : list byte)
      (n : nat) :
  reads m bs a -> take (length bs) mem = bs -> length bs <= n <= length mem ->
  m {| data := mem; size := n; pos := 0 |} =
    Ok a {| data := mem; size := n; pos := length bs |}.
Proof.
  intros Hm Ht Hn. rewrite (Hm {| data := mem; size := n; pos := 0 |}).
  - reflexivity.
  - unfold window, readable. cbn [data size pos]. rewrite drop_0.
    repeat split; (lia || assumption).
Qed.

(* ===================================================================== *)
(** ** The encoder writes the layout                                       *)
(* ===================================================================== *)

Lemma emits_push_back (b : byte) : emits (push_back b) [b].
Proof. intros enc. reflexivity. Qed.

Lemma emits_andthen (f g : Encoder -> Encoder) (a b : list byte) :
  emits f a -> emits g b -> emits (f >> g) (a ++ b).
Proof.
  intros Hf Hg enc. unfold andthen. rewrite Hg, Hf, app_assoc. reflexivity.
Qed.

Lemma emits_for_each {A} (body : A -> Encoder -> Encoder)
      (L : A -> list byte) :
  (forall x, emits (body x) (L x)) ->
  forall xs k, emits (for_each body xs) (layout_seq (fun _ => L) k xs).
Proof.
  intros Hbody xs. induction xs as [|x xs IH]; intros k enc.
  - cbn. rewrite app_nil_r. reflexivity.
  - unfold for_each in *. cbn [fold_left layout_seq].
    rewrite (IH (S k)), Hbody, app_assoc. reflexivity.
Qed.

Lemma emits_write_count (n : nat) : emits (write_count n) (layout_count n).
Proof. intros enc. cbn. rewrite <- app_assoc. reflexivity. Qed.

Lemma emits_write_string (s : std_string) :
  emits (write_string s) (layout_string s).
Proof. intros enc. cbn. rewrite <- !app_assoc. reflexivity. Qed.

Lemma emits_write_int32 (v : Z) : emits (write_int32 v) (layout_int32 v).
Proof. intros enc. cbn. rewrite <- !app_assoc. reflexivity. Qed.

Lemma emits_write_int64 (v : Z) : emits (write_int64 v) (layout_int64 v).
Proof. intros enc. cbn. rewrite <- !app_assoc. reflexivity. Qed.

Lemma emits_write_float32 (v : float32) :
  emits (write_float32 v) (layout_float32 v).
Proof. apply emits_write_int32. Qed.

Lemma emits_write_bool (v : bool) : emits (write_bool v) [flag x01 v].
Proof. intros enc. destruct v; reflexivity. Qed.

(** Splits a sequence of writes along the matching concatenation. *)
Ltac emits_split :=
  repeat match goal with
         | |- emits (_ >> _) (_ ++ _) => apply emits_andthen
         end.

Lemma emits_encode_parameter (p : Parameter_) :
  emits (encode_parameter p) (layout_parameter canonical_flags p).
Proof.
  unfold encode_parameter, layout_parameter.
  assert (Hiv : emits
    match IndexedValues p with
    | Some v => write_byte x01 >> write_count (length v)
                >> for_each write_string v
    | None => write_byte x00
    end (layout_indexed_values x01 (IndexedValues p))).
  { destruct (IndexedValues p) as [v|]; [|apply emits_push_back].
    unfold layout_indexed_values. rewrite app_assoc.
    emits_split; auto using emits_push_back, emits_write_count.
    apply emits_for_each, emits_write_string. }
  assert (Hsrc : emits
    match IndexedValuesSource p with
    | Some s => write_byte x01 >> write_string s
    | None => write_byte x00
    end (layout_indexed_values_source x01 (IndexedValuesSource p))).
  { destruct (IndexedValuesSource p) as [s|]; [|apply emits_push_back].
    apply emits_andthen; auto using emits_push_back, emits_write_string. }
  rewrite !app_assoc.
  emits_split;
    auto using emits_write_string, emits_write_float32, emits_write_int32,
               emits_write_int64, emits_write_bool.
Qed.

Lemma emits_encode_plugin (p : Plugin) :
  emits (encode_plugin p) (layout_plugin (fun _ => canonical_flags) p).
Proof.
  unfold encode_plugin, layout_plugin. rewrite !app_assoc.
  emits_split; auto using emits_write_string, emits_write_count.
  apply (emits_for_each encode_parameter (layout_parameter canonical_flags)).
  apply emits_encode_parameter.
Qed.

(** The encoder's output is the layout with [0x01] for every set flag. *)
Lemma encode_plugin_message_layout (m : list Plugin) :
  encode_plugin_message m = layout_message (fun _ _ => canonical_flags) m.
Proof.
  unfold encode_plugin_message, layout_message.
  rewrite (emits_andthen _ _ _ _ (emits_write_count (length m))
             (emits_for_each encode_plugin
                (layout_plugin (fun _ => canonical_flags))
                emits_encode_plugin m 0)).
  reflexivity.
Qed.

Lemma canonical_flags_nonzero : nonzero_flags canonical_flags.
Proof. repeat split; discriminate. Qed.

(** Decoding a buffer that starts with the layout of [m]. *)
Lemma decode_layout (t : nat -> nat -> flag_bytes) (m : list Plugin)
      (mem : list byte) (n : nat) :
  (forall j i, nonzero_flags (t j i)) ->
  within_limits m = true -> well_typed m = true ->
  take (length (layout_message t m)) mem = layout_message t m ->
  length (layout_message t m) <= n <= length mem ->
  decode_plugin_message mem n = Returns m.
Proof.
  intros Ht Hl Hw Hmem Hn. unfold decode_plugin_message, run.
  rewrite (reads_run decode_message (layout_message t m) m mem n);
    auto using reads_decode_message.
Qed.

Lemma roundtrip (m : list Plugin) :
  within_limits m = true -> well_typed m = true ->
  decode_plugin_message_vec (encode_plugin_message m) = Returns m.
Proof.
  intros Hl Hw. unfold decode_plugin_message_vec.
  rewrite encode_plugin_message_layout.
  apply (decode_layout (fun _ _ => canonical_flags)); auto.
  - intros _ _. apply canonical_flags_nonzero.
  - apply firstn_all.
Qed.

(* ===================================================================== *)
(** ** Bounds safety and stability under extension                         *)
(* ===================================================================== *)

Lemma agree_set_pos (d e : Decoder) (p : nat) :
  agree d e -> agree (set_pos d p) (set_pos e p).
Proof.
  unfold agree, readable. cbn [set_pos pos size data]. intuition.
Qed.

Lemma agree_lookup (d e : Decoder) (i : nat) :
  agree d e -> i < size d -> data e !! i = data d !! i.
Proof.
  intros (_ & _ & _ & Ht) Hi.
  rewrite <- (lookup_take_lt (data e) (size d) i) by assumption.
  rewrite Ht. apply lookup_take_lt. assumption.
Qed.

Lemma agree_byte_at (d e : Decoder) (k : nat) :
  agree d e -> pos d + k < size d -> byte_at e k = byte_at d k.
Proof.
  intros He Hk. unfold byte_at. destruct He as (Hp & He).
  rewrite Hp. rewrite (agree_lookup d e); [reflexivity| |assumption].
  split; assumption.
Qed.

Lemma agree_range (d e : Decoder) (p n : nat) :
  agree d e -> p + n <= size d ->
  take n (drop p (data e)) = take n (drop p (data d)).
Proof.
  intros (_ & _ & _ & Ht) Hn. rewrite !take_drop_commute.
  replace (p + n) with (min (p + n) (size d)) by lia.
  rewrite <- !take_take, Ht. reflexivity.
Qed.

Lemma sound_ret {A} (a : A) : sound (ret a).
Proof.
  intros d Hr Hp. cbn. exists (pos d). rewrite set_pos_id.
  repeat split; try lia. intros e (He & _). rewrite <- He, set_pos_id.
  reflexivity.
Qed.

Lemma sound_bind {A B} (m : M A) (f : A -> M B) :
  sound m -> (forall a, sound (f a)) -> sound (bind m f).
Proof.
  intros Hm Hf d Hr Hp. unfold bind. specialize (Hm d Hr Hp).
  destruct (m d) as [a d'| |]; [|assumption|assumption].
  destruct Hm as (p & -> & Hpp & Hext).
  specialize (Hf a (set_pos d p)). cbn [set_pos pos size data] in Hf.
  specialize (Hf Hr ltac:(lia)).
  destruct (f a (set_pos d p)) as [b d''| |]; [|assumption|assumption].
  destruct Hf as (q & -> & Hq & Hext').
  exists q. rewrite set_pos_set_pos. cbn [set_pos pos] in Hq.
  repeat split; try lia.
  intros e He. rewrite (Hext e He).
  rewrite (Hext' (set_pos e p) (agree_set_pos d e p He)).
  reflexivity.
Qed.

Lemma sound_for_push {A} (body : M A) :
  sound body -> forall n acc, sound (for_push n body acc).
Proof.
  intros Hb n. induction n as [|n IH]; intros acc; cbn [for_push].
  - apply sound_ret.
  - apply sound_bind; [assumption|]. intros x. apply IH.
Qed.

(** Discharges the extension part of [sound] for a primitive whose
    specification [spec] has been rewritten on both decoders. *)
Ltac same_on_extension d e :=
  match goal with
  | He : agree d e |- _ =>
      pose proof He as (?Hpos & ?Hsz & ?Hre & _)
  end.

Lemma sound_read_bool : sound read_bool.
Proof.
  intros d Hr Hp. rewrite read_bool_spec by assumption.
  destruct (Nat.ltb_spec (size d) (pos d + 1)); [reflexivity|].
  exists (pos d + 1). repeat split; try lia.
  intros e He. same_on_extension d e.
  rewrite read_bool_spec by assumption.
  destruct (Nat.ltb_spec (size e) (pos e + 1)); [lia|].
  rewrite (agree_byte_at d e) by (assumption || lia).
  rewrite Hpos. reflexivity.
Qed.

Lemma agree_word16 (d e : Decoder) :
  agree d e -> pos d + 2 <= size d -> word16_at e = word16_at d.
Proof.
  intros He Hn. unfold word16_at.
  rewrite !(agree_byte_at d e) by (assumption || lia). reflexivity.
Qed.

Lemma agree_word32 (d e : Decoder) :
  agree d e -> pos d + 4 <= size d -> word32_at e = word32_at d.
Proof.
  intros He Hn. unfold word32_at.
  rewrite !(agree_byte_at d e) by (assumption || lia). reflexivity.
Qed.

Lemma agree_word64 (d e : Decoder) :
  agree d e -> pos d + 8 <= size d -> word64_at e = word64_at d.
Proof.
  intros He Hn. unfold word64_at.
  rewrite !(agree_byte_at d e) by (assumption || lia). reflexivity.
Qed.

Lemma sound_read_array_length : sound read_array_length.
Proof.
  intros d Hr Hp. rewrite read_array_length_spec by assumption.
  destruct (Nat.ltb_spec (size d) (pos d + 2)); [reflexivity|].
  exists (pos d + 2). repeat split; try lia.
  intros e He. same_on_extension d e.
  rewrite read_array_length_spec by assumption.
  destruct (Nat.ltb_spec (size e) (pos e + 2)); [lia|].
  rewrite (agree_word16 d e), Hpos by (assumption || lia). reflexivity.
Qed.

Lemma sound_read_int32 : sound read_int32.
Proof.
  intros d Hr Hp. rewrite read_int32_spec by assumption.
  destruct (Nat.ltb_spec (size d) (pos d + 4)); [reflexivity|].
  exists (pos d + 4). repeat split; try lia.
  intros e He. same_on_extension d e.
  rewrite read_int32_spec by assumption.
  destruct (Nat.ltb_spec (size e) (pos e + 4)); [lia|].
  rewrite (agree_word32 d e), Hpos by (assumption || lia). reflexivity.
Qed.

Lemma sound_read_int64 : sound read_int64.
Proof.
  intros d Hr Hp. rewrite read_int64_spec by assumption.
  destruct (Nat.ltb_spec (size d) (pos d + 8)); [reflexivity|].
  exists (pos d + 8). repeat split; try lia.
  intros e He. same_on_extension d e.
  rewrite read_int64_spec by assumption.
  destruct (Nat.ltb_spec (size e) (pos e + 8)); [lia|].
  rewrite (agree_word64 d e), Hpos by (assumption || lia). reflexivity.
Qed.

Lemma sound_read_float32 : sound read_float32.
Proof.
  unfold read_float32. apply sound_bind; [apply sound_read_int32|].
  intros v. apply sound_ret.
Qed.

Lemma sound_read_string : sound read_string.
Proof.
  intros d Hr Hp. rewrite read_string_spec by assumption.
  destruct (Nat.ltb_spec (size d) (pos d + 2)); [reflexivity|].
  cbv zeta.
  destruct (Nat.ltb_spec (size d) (pos d + 2 + Z.to_nat (word16_at d)));
    [reflexivity|].
  exists (pos d + 2 + Z.to_nat (word16_at d)). repeat split; try lia.
  intros e He. same_on_extension d e.
  rewrite read_string_spec by assumption.
  destruct (Nat.ltb_spec (size e) (pos e + 2)); [lia|].
  rewrite (agree_word16 d e) by (assumption || lia). cbv zeta.
  destruct (Nat.ltb_spec (size e) (pos e + 2 + Z.to_nat (word16_at d)));
    [lia|].
  rewrite Hpos. rewrite (agree_range d e) by (assumption || lia).
  reflexivity.
Qed.

Lemma sound_decode_indexed_values : sound decode_indexed_values.
Proof.
  unfold decode_indexed_values.
  apply sound_bind; [apply sound_read_bool|]. intros [|]; [|apply sound_ret].
  apply sound_bind; [apply sound_read_array_length|]. intros len.
  apply sound_bind; [apply sound_for_push, sound_read_string|].
  intros v. apply sound_ret.
Qed.

Lemma sound_decode_indexed_values_source :
  sound decode_indexed_values_source.
Proof.
  unfold decode_indexed_values_source.
  apply sound_bind; [apply sound_read_bool|]. intros [|]; [|apply sound_ret].
  apply sound_bind; [apply sound_read_string|]. intros s. apply sound_ret.
Qed.

Create HintDb decoder_sound.
#[local] Hint Resolve sound_ret sound_read_bool sound_read_array_length
  sound_read_int32 sound_read_int64 sound_read_float32 sound_read_string
  sound_decode_indexed_values sound_decode_indexed_values_source
  : decoder_sound.

Ltac sound_steps :=
  repeat (apply sound_bind; [solve [auto with decoder_sound]|]; intros ?).

Lemma sound_decode_parameter : sound decode_parameter.
Proof. unfold decode_parameter. sound_steps. apply sound_ret. Qed.

Lemma sound_decode_plugin : sound decode_plugin.
Proof.
  unfold decode_plugin. sound_steps.
  apply sound_bind; [apply sound_for_push, sound_decode_parameter|].
  intros ps. apply sound_ret.
Qed.

Lemma sound_decode_message : sound decode_message.
Proof.
  unfold decode_message. sound_steps.
  apply sound_for_push, sound_decode_plugin.
Qed.

(** For every buffer and every supplied length that the buffer really has,
    decoding returns or throws the insufficient-data error; it never reads
    outside the supplied length. *)
Lemma decode_plugin_message_safe (mem : list byte) (n : nat) :
  n <= length mem ->
  (exists m, decode_plugin_message mem n = Returns m) \/
  decode_plugin_message mem n = Throws insufficient_data.
Proof.
  intros Hn. unfold decode_plugin_message, run.
  pose proof (sound_decode_message {| data := mem; size := n; pos := 0 |}
                Hn ltac:(cbn; lia)) as H.
  destruct (decode_message _) as [m d'|w|].
  - left. eauto.
  - right. rewrite H. reflexivity.
  - contradiction.
Qed.

(** Decoding with a supplied length shorter than the encoding of [m]. *)
Lemma decode_truncated (m : list Plugin) (mem : list byte) (k : nat) :
  within_limits m = true -> well_typed m = true ->
  k < length (encode_plugin_message m) ->
  k <= length mem ->
  take k mem = take k (encode_plugin_message m) ->
  decode_plugin_message mem k = Throws insufficient_data.
Proof.
  intros Hl Hw Hk Hmem Hpre.
  rewrite encode_plugin_message_layout in Hk, Hpre.
  set (buf := layout_message (fun _ _ => canonical_flags) m) in *.
  set (d := {| data := mem; size := k; pos := 0 |}).
  set (e := {| data := buf; size := length buf; pos := 0 |}).
  assert (Hfull : decode_message e = Ok m (set_pos e (length buf))).
  { apply (reads_run decode_message buf m buf (length buf)).
    - apply reads_decode_message; auto.
      intros _ _. apply canonical_flags_nonzero.
    - apply firstn_all.
    - lia. }
  assert (Hde : agree d e).
  { subst d e. unfold agree, readable. cbn [pos size data].
    repeat split; try lia. symmetry. assumption. }
  unfold decode_plugin_message, run. fold d.
  assert (H0 : pos d <= size d) by (unfold d; cbn; lia).
  pose proof (sound_decode_message d Hmem H0) as H.
  destruct (decode_message d) as [a d'|w|].
  - destruct H as (p & _ & Hp & Hext). rewrite (Hext e Hde) in Hfull.
    apply (f_equal (fun o => match o with Ok _ x => pos x | _ => 0 end))
      in Hfull.
    cbn [pos set_pos] in Hfull. unfold d in Hp. cbn [size pos] in Hp. lia.
  - rewrite H. reflexivity.
  - contradiction.
Qed.

(* ===================================================================== *)
(** ** Handles: what the boundary functions keep                           *)
(* ===================================================================== *)

Lemma plugin_impl_Done (a : positive) (h : PluginC.heap) impl :
  PluginC.plugin_impl a h = Done impl <-> h !! a = Some (PluginC.PluginObj impl).
Proof.
  unfold PluginC.plugin_impl.
  destruct (h !! a) as [[i|i]|]; split; intros H; congruence.
Qed.

(** Every live plugin object of a reachable heap owns at least one plugin:
    [plugin_decode] makes no handle for an empty message, and nothing else
    changes [plugins]. *)
Lemma reachable_plugins_nonempty (h : PluginC.heap) :
  reachable h ->
  forall a impl, h !! a = Some (PluginC.PluginObj impl) ->
                 PluginC.plugins impl <> [].
Proof.
  induction 1 as [|h data len e handle err h' _ IH Hcall
                  |h handle od e n out err h' _ IH Hcall
                  |h handle h' _ IH Hcall
                  |h handle i ph h' _ IH Hcall]; intros a impl Ha.
  - rewrite lookup_empty in Ha. discriminate.
  - unfold PluginC.plugin_decode in Hcall.
    destruct data as [bytes|]; [|injection Hcall as <- <- <-; eauto].
    destruct (len =? 0); [injection Hcall as <- <- <-; eauto|].
    destruct (decode_plugin_message bytes len) as [[|p ps]|w|];
      try discriminate; try (injection Hcall as <- <- <-; eauto).
    destruct (decide (a = fresh (dom h))) as [->|Hne].
    + rewrite lookup_insert_eq in Ha. injection Ha as <-. discriminate.
    + rewrite lookup_insert_ne in Ha by congruence. eauto.
  - unfold PluginC.plugin_encode in Hcall.
    destruct handle as [|a0]; [injection Hcall as <- <- <- <-; eauto|].
    destruct (PluginC.plugin_impl a0 h) as [impl0|] eqn:E; [|discriminate].
    apply plugin_impl_Done in E. cbn in Hcall.
    destruct od; [|discriminate]. injection Hcall as <- <- <- <-.
    destruct (decide (a = a0)) as [->|Hne].
    + rewrite lookup_insert_eq in Ha. injection Ha as <-. cbn. eauto.
    + rewrite lookup_insert_ne in Ha by congruence. eauto.
  - unfold PluginC.plugin_free in Hcall.
    destruct handle as [|a0]; [injection Hcall as <-; eauto|].
    destruct (PluginC.plugin_impl a0 h) as [impl0|]; [|discriminate].
    cbn in Hcall. injection Hcall as <-.
    apply lookup_delete_Some in Ha as [_ Ha]. eauto.
  - unfold PluginC.plugin_get_parameter in Hcall.
    destruct handle as [|a0]; [injection Hcall as <- <-; eauto|].
    destruct (PluginC.first_plugin a0 h) as [p|]; [|discriminate].
    cbn in Hcall.
    destruct (length (Parameters p) <=? i);
      injection Hcall as <- <-; [eauto|].
    destruct (decide (a = fresh (dom h))) as [->|Hne].
    + rewrite lookup_insert_eq in Ha. discriminate.
    + rewrite lookup_insert_ne in Ha by congruence. eauto.
Qed.

Lemma first_plugin_live (h : PluginC.heap) (a : positive) impl :
  reachable h -> h !! a = Some (PluginC.PluginObj impl) ->
  exists p ps, PluginC.plugins impl = p :: ps /\
               PluginC.first_plugin a h = Done p.
Proof.
  intros Hr Ha. pose proof (reachable_plugins_nonempty h Hr a impl Ha) as Hne.
  destruct (PluginC.plugins impl) as [|p ps] eqn:E; [contradiction|].
  exists p, ps. split; [reflexivity|].
  unfold PluginC.first_plugin.
  rewrite (proj2 (plugin_impl_Done a h impl) Ha). cbn. rewrite E. reflexivity.
Qed.

(** Storing an object with the same [plugins] at a live address changes
    nothing an accessor looks at. *)
Section EncodeFrame.
Variables (h : PluginC.heap) (a : positive).
Variables (impl impl' : PluginC.PluginHandleImpl).
Hypothesis Hlive : h !! a = Some (PluginC.PluginObj impl).
Hypothesis Hsame : PluginC.plugins impl' = PluginC.plugins impl.

Let h' : PluginC.heap := <[a := PluginC.PluginObj impl']> h.

Lemma frame_first_plugin (x : positive) :
  PluginC.first_plugin x h' = PluginC.first_plugin x h.
Proof.
  unfold PluginC.first_plugin, PluginC.plugin_impl, h'.
  destruct (decide (x = a)) as [->|Hne].
  - rewrite lookup_insert_eq, Hlive. cbn. rewrite Hsame. reflexivity.
  - rewrite lookup_insert_ne by congruence. reflexivity.
Qed.

Lemma frame_parameter_target (b : positive) :
  PluginC.parameter_target b h' = PluginC.parameter_target b h.
Proof.
  unfold PluginC.parameter_target.
  assert (Hb : match h' !! b with
               | Some (PluginC.ParameterObj i) => Some i
               | _ => None
               end =
               match h !! b with
               | Some (PluginC.ParameterObj i) => Some i
               | _ => None
               end).
  { unfold h'. destruct (decide (b = a)) as [->|Hne].
    - rewrite lookup_insert_eq, Hlive. reflexivity.
    - rewrite lookup_insert_ne by congruence. reflexivity. }
  destruct (h' !! b) as [[i|i]|], (h !! b) as [[j|j]|];
    try discriminate; try reflexivity.
  injection Hb as ->. rewrite frame_first_plugin. reflexivity.
Qed.

Lemma frame_dom : dom h' = dom h.
Proof.
  unfold h'. apply dom_insert_lookup_L. rewrite Hlive. eauto.
Qed.

Lemma frame_call (g : accessor) (x : pointer) : call g x h' = call g x h.
Proof.
  destruct g, x as [|b]; try reflexivity; cbn;
    rewrite ?frame_first_plugin, ?frame_parameter_target; try reflexivity.
  destruct (PluginC.first_plugin b h) as [p|]; [|reflexivity]. cbn.
  destruct (length (Parameters p) <=? index); [reflexivity|].
  cbn. rewrite frame_dom. reflexivity.
Qed.
End EncodeFrame.

Lemma plugin_encode_live (h : PluginC.heap) (a : positive) impl (e : bool) :
  h !! a = Some (PluginC.PluginObj impl) ->
  let encoded := encode_plugin_message (PluginC.plugins impl) in
  PluginC.plugin_encode (Addr a) true e h =
    Done (length encoded, Some encoded, None,
          <[a := PluginC.PluginObj
                   {| PluginC.plugins := PluginC.plugins impl;
                      PluginC.error := PluginC.error impl;
                      PluginC.encoded_data := encoded |}]> h).
Proof.
  intros Ha. cbn. unfold PluginC.plugin_encode.
  rewrite (proj2 (plugin_impl_Done a h impl) Ha). reflexivity.
Qed.

(* ===================================================================== *)
(** ** The codec: round trip, truncation, leniency                         *)
(* ===================================================================== *)

(** C1.  For every message whose text lengths and element counts are at
    most 65535 (and whose numeric fields hold values of their C++ types),
    decoding the bytes that [encode_plugin_message] produces returns the
    message itself: every field, the presence of each optional, the order
    of every sequence. *)
Theorem roundtrip_message (m : list Plugin) :
  within_limits m = true ->
  well_typed m = true ->
  decode_plugin_message_vec (encode_plugin_message m) = Returns m /\
  decode_plugin_message (encode_plugin_message m)
                        (length (encode_plugin_message m)) = Returns m.
Proof.
  intros Hl Hw. split; apply roundtrip; assumption.
Qed.

Lemma roundtrip_message_witness :
  within_limits sample_message = true /\
  well_typed sample_message = true /\
  decode_plugin_message_vec (encode_plugin_message sample_message)
    = Returns sample_message.
Proof.
  split; [reflexivity|]. split; [reflexivity|].
  apply (roundtrip_message sample_message); reflexivity.
Defined.

(** C2.  Let [buf] be the encoding of a message within the limits, of
    length [N].  With [r] trailing bytes removed, [1 <= r <= N - 1],
    decoding throws the insufficient-data error, whether the caller passes
    the shortened vector or the same memory with the shorter length.  The
    decoder's outcome type separates a throw from a read at an offset at or
    beyond the supplied length, so no such read happens. *)
Theorem truncation_safety (m : list Plugin) (r : nat) :
  within_limits m = true ->
  well_typed m = true ->
  1 <= r <= length (encode_plugin_message m) - 1 ->
  let buf := encode_plugin_message m in
  let k := length buf - r in
  decode_plugin_message_vec (take k buf) = Throws insufficient_data /\
  decode_plugin_message buf k = Throws insufficient_data /\
  decode_plugin_message_vec (take k buf) <> Undefined /\
  decode_plugin_message buf k <> Undefined.
Proof.
  intros Hl Hw Hr buf k.
  assert (Hk : k < length (encode_plugin_message m)) by (unfold k, buf; lia).
  clearbody k. subst buf.
  assert (H1 : decode_plugin_message_vec (take k (encode_plugin_message m))
               = Throws insufficient_data).
  { unfold decode_plugin_message_vec. rewrite length_take_le by lia.
    apply (decode_truncated m); auto.
    - rewrite length_take_le; lia.
    - rewrite take_take. f_equal. lia. }
  assert (H2 : decode_plugin_message (encode_plugin_message m) k
               = Throws insufficient_data).
  { apply (decode_truncated m); auto. lia. }
  rewrite H1, H2. repeat split; discriminate.
Qed.

Lemma truncation_safety_witness :
  within_limits sample_message = true /\
  well_typed sample_message = true /\
  1 <= 5 <= length (encode_plugin_message sample_message) - 1 /\
  decode_plugin_message_vec
    (take (length (encode_plugin_message sample_message) - 5)
          (encode_plugin_message sample_message))
  = Throws insufficient_data.
Proof.
  split; [reflexivity|]. split; [reflexivity|].
  split; [vm_compute; lia|].
  apply (truncation_safety sample_message 5);
    [reflexivity | reflexivity | vm_compute; lia].
Defined.

(** At the boundary the throw is caught: a truncated encoding yields no
    handle, the insufficient-data message, and an unchanged heap. *)
Lemma message_decode_truncated (m : list Plugin) (k : nat) (error_msg : bool)
    (hm : MessageC.heap) (hp : PluginC.heap) :
  within_limits m = true -> well_typed m = true ->
  1 <= k < length (encode_plugin_message m) ->
  MessageC.message_decode (Some (take k (encode_plugin_message m))) k
    error_msg hm
    = Done (nullptr, store_error error_msg insufficient_data, hm) /\
  PluginC.plugin_decode (Some (take k (encode_plugin_message m))) k
    error_msg hp
    = Done (nullptr, store_error error_msg insufficient_data, hp).
Proof.
  intros Hl Hw Hk.
  assert (H : decode_plugin_message (take k (encode_plugin_message m)) k
              = Throws insufficient_data).
  { apply (decode_truncated m); auto; try lia.
    - rewrite length_take_le; lia.
    - rewrite take_take. f_equal. lia. }
  unfold MessageC.message_decode, PluginC.plugin_decode.
  destruct (Nat.eqb_spec k 0); [lia|]. rewrite H. split; reflexivity.
Qed.

(** C6.  Whatever the two optional fields of a parameter are -- each of
    them absent or present, independently of the other -- encoding and
    decoding a message that carries the parameter returns it with exactly
    these optionals.  In particular an absent [IndexedValues] comes back
    absent and [Some ["a"; "b"; "c"]] comes back as this sequence. *)
Theorem optional_presence (pl : Plugin) (p : Parameter_)
    (iv : option (list std_string)) (ivs : option std_string) :
  let q := with_optionals p iv ivs in
  plugin_within_limits (with_parameter pl q) = true ->
  plugin_well_typed (with_parameter pl q) = true ->
  exists pl' q',
    decode_plugin_message_vec (encode_plugin_message [with_parameter pl q])
      = Returns [pl'] /\
    Parameters pl' = [q'] /\
    IndexedValues q' = iv /\
    IndexedValuesSource q' = ivs /\
    q' = q /\ pl' = with_parameter pl q.
Proof.
  intros q Hl Hw. exists (with_parameter pl q), q.
  repeat split. apply roundtrip.
  - unfold within_limits. cbn [forallb length]. rewrite Hl. reflexivity.
  - unfold well_typed. cbn [forallb]. rewrite Hw. reflexivity.
Qed.

Lemma optional_presence_witness :
  (exists pl' q',
    decode_plugin_message_vec
      (encode_plugin_message
         [with_parameter sample_plugin
            (with_optionals sample_parameter None (Some (str "src")))])
      = Returns [pl'] /\
    Parameters pl' = [q'] /\
    IndexedValues q' = None /\
    IndexedValuesSource q' = Some (str "src") /\
    q' = with_optionals sample_parameter None (Some (str "src")) /\
    pl' = with_parameter sample_plugin
            (with_optionals sample_parameter None (Some (str "src")))) /\
  (exists pl' q',
    decode_plugin_message_vec
      (encode_plugin_message
         [with_parameter sample_plugin
            (with_optionals sample_parameter (Some abc) None)])
      = Returns [pl'] /\
    Parameters pl' = [q'] /\
    IndexedValues q' = Some abc /\
    IndexedValuesSource q' = None /\
    q' = with_optionals sample_parameter (Some abc) None /\
    pl' = with_parameter sample_plugin
            (with_optionals sample_parameter (Some abc) None)).
Proof.
  split.
  - apply (optional_presence sample_plugin sample_parameter None
             (Some (str "src"))); reflexivity.
  - apply (optional_presence sample_plugin sample_parameter (Some abc) None);
      reflexivity.
Defined.

(** The four combinations, on the sample parameter. *)
Example optional_presence_four_combinations :
  Forall (fun '(iv, ivs) =>
    decode_plugin_message_vec
      (encode_plugin_message
         [with_parameter sample_plugin
            (with_optionals sample_parameter iv ivs)])
    = Returns [with_parameter sample_plugin
                 (with_optionals sample_parameter iv ivs)])
    [ (None, None); (None, Some (str "src"));
      (Some abc, None); (Some abc, Some (str "src")) ].
Proof. repeat constructor. Qed.

(** C7.  Boundary values come back exactly.  A text of 0 bytes and a text
    of 65535 bytes, in text fields of a plugin and of a parameter; sequences
    of no element (an empty message, a plugin without parameters, a present
    and empty [IndexedValues]); and a negative [RawFlags], which is written
    as the eight little-endian bytes of its two's complement
    [v + 2^64]. *)
Theorem boundary_values (s : std_string) (v : Z) :
  (Z.of_nat (length s) = 0 \/ Z.of_nat (length s) = 65535)%Z ->
  (- 2 ^ 63 <= v < 0)%Z ->
  decode_plugin_message_vec (encode_plugin_message (boundary_message s v))
    = Returns (boundary_message s v) /\
  decode_plugin_message_vec (encode_plugin_message []) = Returns [] /\
  reads read_string (buffer (write_string s {| buffer := [] |})) s /\
  reads read_int64 (buffer (write_int64 v {| buffer := [] |})) v /\
  buffer (write_int64 v {| buffer := [] |}) = le64 (v + 2 ^ 64).
Proof.
  intros Hs Hv.
  assert (Hfit : fits16 (length s) = true).
  { unfold fits16. apply Z.leb_le. lia. }
  split; [|split; [|split; [|split]]].
  - apply roundtrip.
    + unfold within_limits, boundary_message, plugin_within_limits,
        parameter_within_limits.
      cbn [forallb length Name ManufacturerID Type_ Subtype Parameters
           DisplayName Unit Identifier IndexedValues IndexedValuesSource].
      rewrite !Hfit. reflexivity.
    + unfold well_typed, boundary_message, plugin_well_typed,
        parameter_well_typed.
      cbn [forallb Parameters DefaultValue CurrentValue Address MaxValue
           MinValue RawFlags].
      assert (Hv64 : is_int64 v = true).
      { unfold is_int64. apply andb_true_iff. split;
          [apply Z.leb_le | apply Z.ltb_lt]; lia. }
      rewrite Hv64. reflexivity.
  - reflexivity.
  - rewrite (emits_write_string s). apply reads_read_string. assumption.
  - rewrite (emits_write_int64 v). apply reads_read_int64. lia.
  - rewrite (emits_write_int64 v). cbn [buffer app].
    unfold layout_int64, cast_uint64. f_equal.
    rewrite <- (Z.mod_small (v + 2 ^ 64) (2 ^ 64)) by lia.
    rewrite <- Zplus_mod_idemp_r, Z.mod_same by lia.
    rewrite Z.add_0_r. reflexivity.
Qed.

Lemma boundary_values_witness :
  (Z.of_nat (length (@nil byte)) = 0 \/
   Z.of_nat (length (@nil byte)) = 65535)%Z /\
  (- 2 ^ 63 <= - 2 ^ 63 < 0)%Z /\
  decode_plugin_message_vec
    (encode_plugin_message (boundary_message [] (- 2 ^ 63)))
    = Returns (boundary_message [] (- 2 ^ 63)).
Proof.
  split; [left; reflexivity|]. split; [lia|].
  apply (boundary_values [] (- 2 ^ 63)); [left; reflexivity | lia].
Defined.

(** C8.  The sample plugin: its encoding has
    2 + (2+3) + (2+4) + (2+4) + (2+4) + 2 = 27 bytes, and decodes to the
    same message.  The byte count follows the same formula for every plugin
    without parameters. *)
Theorem sample_scenario :
  decode_plugin_message_vec (encode_plugin_message [sample_plugin])
    = Returns [sample_plugin] /\
  length (encode_plugin_message [sample_plugin])
    = 2 + ((2 + length (Name sample_plugin)) +
           (2 + length (ManufacturerID sample_plugin)) +
           (2 + length (Type_ sample_plugin)) +
           (2 + length (Subtype sample_plugin))) + 2 /\
  length (encode_plugin_message [sample_plugin]) = 27 /\
  forall name manufacturerID type_ subtype : std_string,
    length (encode_plugin_message
              [ {| Name := name; ManufacturerID := manufacturerID;
                   Type_ := type_; Subtype := subtype;
                   Parameters := [] |} ])
    = 2 + ((2 + length name) + (2 + length manufacturerID) +
           (2 + length type_) + (2 + length subtype)) + 2.
Proof.
  split; [reflexivity|]. split; [reflexivity|]. split; [reflexivity|].
  intros name manufacturerID type_ subtype.
  rewrite encode_plugin_message_layout.
  unfold layout_message, layout_plugin, layout_string, layout_count.
  cbn [layout_seq Name ManufacturerID Type_ Subtype Parameters].
  rewrite !length_app. cbn [length le16]. lia.
Qed.

(** C9.  [read_bool] returns true exactly when the byte is not [0x00],
    while [write_bool] writes [0x01] or [0x00] only.  So take the encoding
    of any message within the limits and put any non-zero bytes [t j i] in
    place of the [0x01] of its set booleans and present optionals: decoding
    still returns the message. *)
Theorem lenient_flags (t : nat -> nat -> flag_bytes) (m : list Plugin) :
  (forall j i, nonzero_flags (t j i)) ->
  within_limits m = true ->
  well_typed m = true ->
  decode_plugin_message_vec (layout_message t m) = Returns m /\
  encode_plugin_message m = layout_message (fun _ _ => canonical_flags) m /\
  (forall d, readable d -> pos d < size d ->
     read_bool d = Ok (negb (Byte.eqb (byte_at d 0) x00))
                      (set_pos d (pos d + 1))) /\
  (forall v enc,
     buffer (write_bool v enc) = buffer enc ++ [if v then x01 else x00]).
Proof.
  intros Ht Hl Hw. split; [|split; [|split]].
  - unfold decode_plugin_message_vec.
    apply (decode_layout t m); auto using firstn_all.
  - apply encode_plugin_message_layout.
  - intros d Hr Hp. rewrite read_bool_spec by assumption.
    destruct (Nat.ltb_spec (size d) (pos d + 1)); [lia|reflexivity].
  - intros v enc. reflexivity.
Qed.

Lemma lenient_flags_witness :
  (forall j i : nat, nonzero_flags loud_flags) /\
  within_limits sample_message = true /\
  well_typed sample_message = true /\
  layout_message (fun _ _ => loud_flags) sample_message
    <> encode_plugin_message sample_message /\
  decode_plugin_message_vec
    (layout_message (fun _ _ => loud_flags) sample_message)
    = Returns sample_message.
Proof.
  assert (Hnz : forall j i : nat, nonzero_flags loud_flags)
    by (intros _ _; repeat split; discriminate).
  split; [exact Hnz|]. split; [reflexivity|]. split; [reflexivity|].
  split; [vm_compute; discriminate|].
  apply (lenient_flags (fun _ _ => loud_flags) sample_message Hnz);
    reflexivity.
Defined.

(* ===================================================================== *)
(** ** The boundary: empty messages, handles, accessors                    *)
(* ===================================================================== *)

(** C3.  The two bytes [00 00] are the encoding of the empty message.  The
    codec decodes them to an empty sequence of plugins; [message_decode] and
    [plugin_decode] return no handle, leave the heap as it is, and report
    the empty-message error (when the caller passed a place for it). *)
Theorem empty_message_rule (hm : MessageC.heap) (hp : PluginC.heap) :
  encode_plugin_message [] = [x00; x00] /\
  decode_plugin_message [x00; x00] 2 = Returns [] /\
  MessageC.message_decode (Some [x00; x00]) 2 true hm
    = Done (nullptr, Some "No items in message"%string, hm) /\
  PluginC.plugin_decode (Some [x00; x00]) 2 true hp
    = Done (nullptr, Some "No plugins in message"%string, hp) /\
  MessageC.message_decode (Some [x00; x00]) 2 false hm
    = Done (nullptr, None, hm) /\
  PluginC.plugin_decode (Some [x00; x00]) 2 false hp
    = Done (nullptr, None, hp).
Proof. repeat split; reflexivity. Qed.

Lemma heap1_decoded :
  PluginC.plugin_decode (Some (encode_plugin_message sample_message))
    (length (encode_plugin_message sample_message)) true ∅
  = Done (Addr 1, None, heap1).
Proof. vm_compute. reflexivity. Qed.

Lemma heap2_got :
  PluginC.plugin_get_parameter (Addr 1) 0 heap1 = Done (Addr 2, heap2).
Proof. vm_compute. reflexivity. Qed.

Lemma heap1_reachable : reachable heap1.
Proof. eapply reach_decode; [apply reach_start | apply heap1_decoded]. Qed.

Lemma heap2_reachable : reachable heap2.
Proof.
  eapply reach_get_parameter; [apply heap1_reachable | apply heap2_got].
Qed.

(** C4, as the claim states it, fails: the handle that [plugin_decode]
    returned for the sample message is released by [plugin_free], and the
    next [plugin_encode] or accessor call on it is undefined, not an
    invalid-handle result.  The same holds for [message_free] and
    [message_encode]. *)
Lemma released_handle_counterexample :
  PluginC.plugin_decode (Some (encode_plugin_message sample_message))
    (length (encode_plugin_message sample_message)) true ∅
    = Done (Addr 1, None, heap1) /\
  PluginC.plugin_free (Addr 1) heap1 = Done ∅ /\
  PluginC.plugin_encode (Addr 1) true true ∅ = UB /\
  PluginC.plugin_get_name (Addr 1) ∅ = UB /\
  MessageC.message_decode (Some (encode_plugin_message sample_message))
    (length (encode_plugin_message sample_message)) true ∅
    = Done (Addr 1, None, mheap1) /\
  MessageC.message_free (Addr 1) mheap1 = Done ∅ /\
  MessageC.message_encode (Addr 1) true true ∅ = UB.
Proof. repeat split; vm_compute; reflexivity. Qed.

(** C4, amended.  Only the null handle is recognised: on it the encode
    functions return 0 with the error "Invalid handle" and every accessor
    returns its sentinel.  A handle that [plugin_free] or [message_free]
    has released is not recognised: encode and every accessor dereference
    the released object, which is undefined. *)
Theorem null_handle_only (h : PluginC.heap) (hm : MessageC.heap)
    (out_data error_msg : bool) :
  PluginC.plugin_encode nullptr out_data error_msg h
    = Done (0, None, store_error error_msg "Invalid handle", h) /\
  MessageC.message_encode nullptr out_data error_msg hm
    = Done (0, None, store_error error_msg "Invalid handle", hm) /\
  (forall g, call g nullptr h = Done (sentinel g)) /\
  (forall a h', PluginC.plugin_free (Addr a) h = Done h' ->
     PluginC.plugin_encode (Addr a) out_data error_msg h' = UB /\
     forall g, call g (Addr a) h' = UB) /\
  (forall b hm', MessageC.message_free (Addr b) hm = Done hm' ->
     MessageC.message_encode (Addr b) out_data error_msg hm' = UB).
Proof.
  split; [reflexivity|]. split; [reflexivity|].
  split; [intros g; destruct g; reflexivity|]. split.
  - intros a h' Hfree.
    assert (Ha : h' !! a = None).
    { unfold PluginC.plugin_free in Hfree.
      destruct (PluginC.plugin_impl a h); [|discriminate].
      cbn in Hfree. injection Hfree as <-. apply lookup_delete_eq. }
    assert (Hfp : PluginC.first_plugin a h' = UB).
    { unfold PluginC.first_plugin, PluginC.plugin_impl. rewrite Ha.
      reflexivity. }
    assert (Hpt : PluginC.parameter_target a h' = UB).
    { unfold PluginC.parameter_target. rewrite Ha. reflexivity. }
    split.
    + unfold PluginC.plugin_encode, PluginC.plugin_impl. rewrite Ha.
      reflexivity.
    + intros g. destruct g; cbn; rewrite ?Hfp, ?Hpt; reflexivity.
  - intros b hm' Hfree.
    assert (Hb : hm' !! b = None).
    { unfold MessageC.message_free in Hfree.
      destruct (hm !! b); [|discriminate].
      injection Hfree as <-. apply lookup_delete_eq. }
    unfold MessageC.message_encode. rewrite Hb. reflexivity.
Qed.

Lemma null_handle_only_witness :
  PluginC.plugin_free (Addr 1) heap1 = Done ∅ /\
  MessageC.message_free (Addr 1) mheap1 = Done ∅ /\
  PluginC.plugin_encode nullptr true true heap1
    = Done (0, None, Some "Invalid handle"%string, heap1) /\
  PluginC.plugin_encode (Addr 1) true true ∅ = UB /\
  MessageC.message_encode (Addr 1) true true ∅ = UB.
Proof.
  assert (H1 : PluginC.plugin_free (Addr 1) heap1 = Done ∅)
    by (vm_compute; reflexivity).
  assert (H2 : MessageC.message_free (Addr 1) mheap1 = Done ∅)
    by (vm_compute; reflexivity).
  split; [exact H1|]. split; [exact H2|].
  pose proof (null_handle_only heap1 mheap1 true true)
    as (E1 & _ & _ & E2 & E3).
  split; [exact E1|]. split; [exact (proj1 (E2 1%positive ∅ H1))|].
  exact (E3 1%positive ∅ H2).
Defined.

(** C5.  In a reachable heap, take a live plugin handle [Addr a] and let
    [p] be the owned plugin the accessors look at: [plugin_get_parameter]
    returns the null handle for every index at or beyond the parameter
    count, and leaves the heap alone.  Take a parameter handle [Addr b]
    that designates the parameter [q]: [parameter_get_indexed_value]
    returns the null text when [IndexedValues] is absent or has at most [i]
    elements.  For no index at all is the behaviour of either accessor
    undefined. *)
Theorem out_of_range_index (h : PluginC.heap) (i : nat) :
  reachable h ->
  (forall a impl, h !! a = Some (PluginC.PluginObj impl) ->
     (exists p ps,
        PluginC.plugins impl = p :: ps /\
        PluginC.plugin_get_parameters_count (Addr a) h
          = Done (length (Parameters p)) /\
        (length (Parameters p) <= i ->
         PluginC.plugin_get_parameter (Addr a) i h = Done (nullptr, h)) /\
        (i < length (Parameters p) ->
         exists c h', PluginC.plugin_get_parameter (Addr a) i h
                        = Done (Addr c, h'))) /\
     PluginC.plugin_get_parameter (Addr a) i h <> UB) /\
  (forall b q, PluginC.parameter_target b h = Done q ->
     (IndexedValues q = None ->
      PluginC.parameter_get_indexed_values_count (Addr b) h = Done 0 /\
      PluginC.parameter_get_indexed_value (Addr b) i h = Done None) /\
     (forall v, IndexedValues q = Some v ->
        PluginC.parameter_get_indexed_values_count (Addr b) h
          = Done (length v) /\
        (length v <= i ->
         PluginC.parameter_get_indexed_value (Addr b) i h = Done None) /\
        (i < length v ->
         exists s, PluginC.parameter_get_indexed_value (Addr b) i h
                     = Done (Some s))) /\
     PluginC.parameter_get_indexed_value (Addr b) i h <> UB).
Proof.
  intros Hr. split.
  - intros a impl Ha.
    destruct (first_plugin_live h a impl Hr Ha) as (p & ps & Hps & Hfp).
    assert (Hgp : (length (Parameters p) <= i ->
              PluginC.plugin_get_parameter (Addr a) i h = Done (nullptr, h))
            /\ (i < length (Parameters p) ->
              exists c h', PluginC.plugin_get_parameter (Addr a) i h
                             = Done (Addr c, h'))).
    { unfold PluginC.plugin_get_parameter. rewrite Hfp. cbn.
      destruct (Nat.leb_spec (length (Parameters p)) i); split; intros;
        eauto; lia. }
    split.
    + exists p, ps. split; [assumption|]. split; [|exact Hgp].
      unfold PluginC.plugin_get_parameters_count. rewrite Hfp. reflexivity.
    + destruct Hgp as [H1 H2].
      destruct (Nat.le_gt_cases (length (Parameters p)) i) as [Hle|Hlt].
      * rewrite (H1 Hle). discriminate.
      * destruct (H2 Hlt) as (c & h' & ->). discriminate.
  - intros b q Hq.
    assert (Hiv : (IndexedValues q = None ->
              PluginC.parameter_get_indexed_value (Addr b) i h = Done None)
            /\ (forall v, IndexedValues q = Some v ->
              (length v <= i ->
               PluginC.parameter_get_indexed_value (Addr b) i h = Done None)
              /\ (i < length v ->
               exists s, PluginC.parameter_get_indexed_value (Addr b) i h
                           = Done (Some s)))).
    { unfold PluginC.parameter_get_indexed_value. rewrite Hq. cbn.
      destruct (IndexedValues q) as [v|]; split; try discriminate;
        try reflexivity.
      intros v' [= <-].
      destruct (Nat.leb_spec (length v) i); split; intros; try lia;
        try reflexivity.
      unfold at_index.
      destruct (v !! i) as [s|] eqn:E; [cbn; eauto|].
      apply lookup_ge_None in E. lia. }
    split; [|split].
    + intros Hn. split; [|apply Hiv; assumption].
      unfold PluginC.parameter_get_indexed_values_count. rewrite Hq. cbn.
      rewrite Hn. reflexivity.
    + intros v Hv. split; [|apply Hiv; assumption].
      unfold PluginC.parameter_get_indexed_values_count. rewrite Hq. cbn.
      rewrite Hv. reflexivity.
    + destruct Hiv as [H1 H2]. destruct (IndexedValues q) as [v|] eqn:E.
      * destruct (H2 v eq_refl) as [H3 H4].
        destruct (Nat.le_gt_cases (length v) i) as [Hle|Hlt].
        -- rewrite (H3 Hle). discriminate.
        -- destruct (H4 Hlt) as (s & ->). discriminate.
      * rewrite (H1 eq_refl). discriminate.
Qed.

Lemma out_of_range_index_witness :
  reachable heap2 /\
  heap2 !! 1%positive = Some (PluginC.PluginObj sample_impl) /\
  PluginC.parameter_target 2 heap2 = Done sample_parameter /\
  PluginC.plugin_get_parameter (Addr 1) 7 heap2 = Done (nullptr, heap2) /\
  PluginC.parameter_get_indexed_value (Addr 2) 7 heap2 = Done None.
Proof.
  assert (H1 : heap2 !! 1%positive = Some (PluginC.PluginObj sample_impl))
    by reflexivity.
  assert (H2 : PluginC.parameter_target 2 heap2 = Done sample_parameter)
    by reflexivity.
  split; [exact heap2_reachable|]. split; [exact H1|]. split; [exact H2|].
  pose proof (out_of_range_index heap2 7 heap2_reachable) as [E1 E2].
  split.
  - destruct (E1 1%positive sample_impl H1)
      as [(p & ps & Hps & _ & Hge & _) _].
    injection Hps as <- <-. apply Hge. vm_compute. lia.
  - destruct (E2 2%positive sample_parameter H2) as (_ & Hv & _).
    destruct (Hv abc eq_refl) as (_ & Hge & _). apply Hge. vm_compute. lia.
Defined.

Lemma message_encode_live (hm : MessageC.heap) (b : positive)
    (impl : MessageC.MessageHandleImpl) (e : bool) :
  hm !! b = Some impl ->
  let encoded := encode_plugin_message (MessageC.items impl) in
  MessageC.message_encode (Addr b) true e hm =
    Done (length encoded, Some encoded, None,
          <[b := {| MessageC.items := MessageC.items impl;
                    MessageC.error := MessageC.error impl;
                    MessageC.encoded_data := encoded |}]> hm).
Proof.
  intros Hb. cbn. unfold MessageC.message_encode. rewrite Hb. reflexivity.
Qed.

(** C10.  On a live handle, and with a place for the output buffer, the
    encode functions return the encoding of the owned plugins and change
    only the [encoded_data] of the handle's object: the owned plugins are
    the same afterwards, every other object is untouched, every accessor
    returns on every handle what it returned before, and a second encode
    returns the same bytes. *)
Theorem encode_leaves_plugins (hp : PluginC.heap) (hm : MessageC.heap)
    (error_msg : bool) :
  (forall a impl, hp !! a = Some (PluginC.PluginObj impl) ->
     exists hp' impl' hp'',
       let encoded := encode_plugin_message (PluginC.plugins impl) in
       PluginC.plugin_encode (Addr a) true error_msg hp
         = Done (length encoded, Some encoded, None, hp') /\
       hp' !! a = Some (PluginC.PluginObj impl') /\
       PluginC.plugins impl' = PluginC.plugins impl /\
       (forall x, x <> a -> hp' !! x = hp !! x) /\
       (forall g x, call g x hp' = call g x hp) /\
       PluginC.plugin_encode (Addr a) true error_msg hp'
         = Done (length encoded, Some encoded, None, hp'')) /\
  (forall b items, hm !! b = Some items ->
     exists hm' items' hm'',
       let encoded := encode_plugin_message (MessageC.items items) in
       MessageC.message_encode (Addr b) true error_msg hm
         = Done (length encoded, Some encoded, None, hm') /\
       hm' !! b = Some items' /\
       MessageC.items items' = MessageC.items items /\
       (forall x, x <> b -> hm' !! x = hm !! x) /\
       MessageC.message_encode (Addr b) true error_msg hm'
         = Done (length encoded, Some encoded, None, hm'')).
Proof.
  split.
  - intros a impl Ha.
    pose proof (plugin_encode_live hp a impl error_msg Ha) as H1. cbn in H1.
    set (encoded := encode_plugin_message (PluginC.plugins impl)) in *.
    set (impl' := {| PluginC.plugins := PluginC.plugins impl;
                     PluginC.error := PluginC.error impl;
                     PluginC.encoded_data := encoded |}) in *.
    set (hp' := <[a := PluginC.PluginObj impl']> hp) in *.
    assert (Ha' : hp' !! a = Some (PluginC.PluginObj impl'))
      by apply lookup_insert_eq.
    pose proof (plugin_encode_live hp' a impl' error_msg Ha') as H2.
    cbn in H2. fold encoded in H2.
    exists hp', impl'. eexists. cbn zeta.
    split; [exact H1|]. split; [exact Ha'|]. split; [reflexivity|].
    split; [|split; [|exact H2]].
    + intros x Hx. apply lookup_insert_ne. congruence.
    + intros g x. apply (frame_call hp a impl impl' Ha eq_refl).
  - intros b items Hb.
    pose proof (message_encode_live hm b items error_msg Hb) as H1.
    cbn in H1.
    set (encoded := encode_plugin_message (MessageC.items items)) in *.
    set (items' := {| MessageC.items := MessageC.items items;
                      MessageC.error := MessageC.error items;
                      MessageC.encoded_data := encoded |}) in *.
    set (hm' := <[b := items']> hm) in *.
    assert (Hb' : hm' !! b = Some items') by apply lookup_insert_eq.
    pose proof (message_encode_live hm' b items' error_msg Hb') as H2.
    cbn in H2. fold encoded in H2.
    exists hm', items'. eexists. cbn zeta.
    split; [exact H1|]. split; [exact Hb'|]. split; [reflexivity|].
    split; [|exact H2].
    intros x Hx. apply lookup_insert_ne. congruence.
Qed.

Lemma encode_leaves_plugins_witness :
  heap2 !! 1%positive = Some (PluginC.PluginObj sample_impl) /\
  mheap1 !! 1%positive = Some sample_items /\
  (exists hp',
     PluginC.plugin_encode (Addr 1) true true heap2
       = Done (length (encode_plugin_message sample_message),
               Some (encode_plugin_message sample_message), None, hp') /\
     forall g x, call g x hp' = call g x heap2) /\
  (exists hm',
     MessageC.message_encode (Addr 1) true true mheap1
       = Done (length (encode_plugin_message sample_message),
               Some (encode_plugin_message sample_message), None, hm')).
Proof.
  assert (H1 : heap2 !! 1%positive = Some (PluginC.PluginObj sample_impl))
    by reflexivity.
  assert (H2 : mheap1 !! 1%positive = Some sample_items) by reflexivity.
  split; [exact H1|]. split; [exact H2|].
  destruct (encode_leaves_plugins heap2 mheap1 true) as [Ep Em].
  split.
  - destruct (Ep 1%positive sample_impl H1)
      as (hp' & impl' & hp'' & E & _ & _ & _ & F & _).
    exists hp'. split; [exact E | exact F].
  - destruct (Em 1%positive sample_items H2)
      as (hm' & items' & hm'' & E & _).
    exists hm'. exact E.
Defined.

(* ===================================================================== *)
(** ** Further properties of the codec                                     *)
(* ===================================================================== *)

Lemma read_int8_spec (d : Decoder) :
  readable d ->
  read_int8 d =
    if size d <? pos d + 1 then Throw insufficient_data
    else Ok (cast_int8 (byte_to_Z (byte_at d 0))) (set_pos d (pos d + 1)).
Proof.
  intros Hr. unfold read_int8. check_cases d 1. do_load. reflexivity.
Qed.

Lemma read_int16_spec (d : Decoder) :
  readable d ->
  read_int16 d =
    if size d <? pos d + 2 then Throw insufficient_data
    else Ok (cast_int16 (word16_at d)) (set_pos d (pos d + 2)).
Proof.
  intros Hr. unfold read_int16. check_cases d 2. do 2 do_load. reflexivity.
Qed.

Lemma read_float64_spec (d : Decoder) :
  readable d ->
  read_float64 d =
    if size d <? pos d + 8 then Throw insufficient_data
    else Ok (bits_double (cast_uint64 (cast_int64 (word64_at d))))
            (set_pos d (pos d + 8)).
Proof.
  intros Hr. unfold read_float64, bind. rewrite read_int64_spec by assumption.
  destruct (size d <? pos d + 8); reflexivity.
Qed.

Lemma cast_int8_uint8 (v : Z) :
  (- 2 ^ 7 <= v < 2 ^ 7)%Z -> cast_int8 (v mod 2 ^ 8) = v.
Proof.
  intros Hv. unfold cast_int8. rewrite Z.mod_mod by lia.
  destruct (Z.ltb_spec (v mod 2 ^ 8) (2 ^ 7));
    Z.div_mod_to_equations; lia.
Qed.

Lemma cast_int16_uint16 (v : Z) :
  (- 2 ^ 15 <= v < 2 ^ 15)%Z -> cast_int16 (cast_uint16 v) = v.
Proof.
  intros Hv. unfold cast_int16, cast_uint16. rewrite Z.mod_mod by lia.
  destruct (Z.ltb_spec (v mod 2 ^ 16) (2 ^ 15));
    Z.div_mod_to_equations; lia.
Qed.

Lemma cast_uint64_int64 (u : Z) :
  (0 <= u < 2 ^ 64)%Z -> cast_uint64 (cast_int64 u) = u.
Proof.
  intros Hu. unfold cast_int64, cast_uint64.
  rewrite (Z.mod_small u) by lia.
  destruct (Z.ltb_spec u (2 ^ 63)).
  - apply Z.mod_small. lia.
  - Z.div_mod_to_equations; lia.
Qed.

Lemma reads_read_int8 (v : Z) :
  (- 2 ^ 7 <= v < 2 ^ 7)%Z -> reads read_int8 [cast_uint8 v] v.
Proof.
  intros Hv d Hw. pose proof Hw as (Hle & Hr & _). cbn [length] in Hle.
  rewrite read_int8_spec by assumption.
  destruct (Nat.ltb_spec (size d) (pos d + 1)); [lia|].
  rewrite (window_byte_at d _ 0 _ Hw eq_refl), byte_to_Z_cast_uint8.
  rewrite cast_int8_uint8 by assumption. reflexivity.
Qed.

Lemma reads_read_int16 (v : Z) :
  (- 2 ^ 15 <= v < 2 ^ 15)%Z -> reads read_int16 (le16 (cast_uint16 v)) v.
Proof.
  intros Hv d Hw. pose proof Hw as (Hle & Hr & _). cbn [length le16] in Hle.
  rewrite read_int16_spec by assumption.
  destruct (Nat.ltb_spec (size d) (pos d + 2)); [lia|].
  rewrite <- (app_nil_r (le16 _)) in Hw.
  rewrite (window_word16 d _ [] (cast_uint16_range _) Hw).
  rewrite cast_int16_uint16 by assumption. reflexivity.
Qed.

Lemma reads_read_float64 (v : float64) :
  (0 <= v < 2 ^ 64)%Z ->
  reads read_float64 (le64 (cast_uint64 (cast_int64 (double_bits v)))) v.
Proof.
  intros Hv d Hw. pose proof Hw as (Hle & Hr & _). cbn [length le64] in Hle.
  rewrite read_float64_spec by assumption.
  destruct (Nat.ltb_spec (size d) (pos d + 8)); [lia|].
  unfold double_bits in *. rewrite cast_uint64_int64 in * by assumption.
  rewrite (window_word64 d v) by assumption.
  rewrite cast_uint64_int64 by assumption. reflexivity.
Qed.

Lemma emits_write_int8 (v : Z) : emits (write_int8 v) [cast_uint8 v].
Proof. intros enc. reflexivity. Qed.

Lemma emits_write_int16 (v : Z) :
  emits (write_int16 v) (le16 (cast_uint16 v)).
Proof. intros enc. cbn. rewrite <- app_assoc. reflexivity. Qed.

Lemma emits_write_float64 (v : float64) :
  emits (write_float64 v) (le64 (cast_uint64 (cast_int64 (double_bits v)))).
Proof. apply emits_write_int64. Qed.

(** What a writer leaves in an encoder that was empty. *)
Lemma emits_from_empty (w : Encoder -> Encoder) (bs : list byte) :
  emits w bs -> buffer (w {| buffer := [] |}) = bs.
Proof. intros H. rewrite H. reflexivity. Qed.

(** X1.  Every fixed-width integer primitive and the boolean primitive
    reads back what was written: [read_int8], [read_int16], [read_int32]
    and [read_int64] return the value [write_int8] ... [write_int64] wrote,
    for every value of the type, and consume exactly its 1, 2, 4 or 8
    bytes wherever they lie in a buffer; [read_bool] returns the
    boolean [write_bool] wrote. *)
Theorem integer_primitives_roundtrip :
  (forall v, (- 2 ^ 7 <= v < 2 ^ 7)%Z ->
     reads read_int8 (buffer (write_int8 v {| buffer := [] |})) v /\
     length (buffer (write_int8 v {| buffer := [] |})) = 1) /\
  (forall v, (- 2 ^ 15 <= v < 2 ^ 15)%Z ->
     reads read_int16 (buffer (write_int16 v {| buffer := [] |})) v /\
     length (buffer (write_int16 v {| buffer := [] |})) = 2) /\
  (forall v, (- 2 ^ 31 <= v < 2 ^ 31)%Z ->
     reads read_int32 (buffer (write_int32 v {| buffer := [] |})) v /\
     length (buffer (write_int32 v {| buffer := [] |})) = 4) /\
  (forall v, (- 2 ^ 63 <= v < 2 ^ 63)%Z ->
     reads read_int64 (buffer (write_int64 v {| buffer := [] |})) v /\
     length (buffer (write_int64 v {| buffer := [] |})) = 8) /\
  (forall v : bool,
     reads read_bool (buffer (write_bool v {| buffer := [] |})) v).
Proof.
  split; [|split; [|split; [|split]]].
  - intros v Hv. split; [|reflexivity].
    rewrite (emits_from_empty _ _ (emits_write_int8 v)).
    apply reads_read_int8. assumption.
  - intros v Hv. split; [|reflexivity].
    rewrite (emits_from_empty _ _ (emits_write_int16 v)).
    apply reads_read_int16. assumption.
  - intros v Hv. split; [|reflexivity].
    rewrite (emits_from_empty _ _ (emits_write_int32 v)).
    apply reads_read_int32. assumption.
  - intros v Hv. split; [|reflexivity].
    rewrite (emits_from_empty _ _ (emits_write_int64 v)).
    apply reads_read_int64. assumption.
  - intros v. rewrite (emits_from_empty _ _ (emits_write_bool v)).
    apply reads_flag. discriminate.
Qed.

Lemma integer_primitives_roundtrip_witness :
  (- 2 ^ 15 <= -300 < 2 ^ 15)%Z /\
  run read_int16
      {| data := x2a :: buffer (write_int16 (-300) {| buffer := [] |});
         size := 3; pos := 1 |} = Returns (-300)%Z.
Proof.
  split; [lia|].
  destruct integer_primitives_roundtrip as (_ & H16 & _).
  destruct (H16 (-300)%Z ltac:(lia)) as [Hreads _].
  unfold run. rewrite Hreads; [reflexivity|].
  split; [vm_compute; lia|]. split; [vm_compute; lia | reflexivity].
Defined.

(** X2.  The floating-point primitives move bit patterns: every 32-bit
    pattern written by [write_float32] and every 64-bit pattern written by
    [write_float64] is read back unchanged by [read_float32] and
    [read_float64], the patterns of NaNs and infinities included. *)
Theorem float_primitives_roundtrip :
  (forall v, (0 <= v < 2 ^ 32)%Z ->
     reads read_float32 (buffer (write_float32 v {| buffer := [] |})) v /\
     length (buffer (write_float32 v {| buffer := [] |})) = 4) /\
  (forall v, (0 <= v < 2 ^ 64)%Z ->
     reads read_float64 (buffer (write_float64 v {| buffer := [] |})) v /\
     length (buffer (write_float64 v {| buffer := [] |})) = 8).
Proof.
  split.
  - intros v Hv. split; [|reflexivity].
    rewrite (emits_from_empty _ _ (emits_write_float32 v)).
    apply reads_read_float32. assumption.
  - intros v Hv. split; [|reflexivity].
    rewrite (emits_from_empty _ _ (emits_write_float64 v)).
    apply reads_read_float64. assumption.
Qed.

(** The quiet NaN [0x7ff8000000000000] of [double]. *)
Lemma float_primitives_roundtrip_witness :
  (0 <= 0x7ff8000000000000 < 2 ^ 64)%Z /\
  run read_float64
      {| data := buffer (write_float64 0x7ff8000000000000%Z
                           {| buffer := [] |});
         size := 8; pos := 0 |} = Returns 0x7ff8000000000000%Z.
Proof.
  split; [lia|].
  destruct float_primitives_roundtrip as (_ & H64).
  destruct (H64 0x7ff8000000000000%Z ltac:(lia)) as [Hreads _].
  unfold run. rewrite Hreads; [reflexivity|].
  split; [vm_compute; lia|]. split; [vm_compute; lia | reflexivity].
Defined.

(** X3.  The decoder stops after the last plugin and does not look at
    what follows: the encoding of a message within the limits, followed by
    any bytes, decodes to the message. *)
Theorem trailing_bytes_ignored (m : list Plugin) (junk : list byte) :
  within_limits m = true ->
  well_typed m = true ->
  decode_plugin_message_vec (encode_plugin_message m ++ junk) = Returns m.
Proof.
  intros Hl Hw. unfold decode_plugin_message_vec.
  rewrite encode_plugin_message_layout.
  apply (decode_layout (fun _ _ => canonical_flags)); auto.
  - intros _ _. apply canonical_flags_nonzero.
  - apply take_app_length.
  - rewrite length_app. lia.
Qed.

Lemma trailing_bytes_ignored_witness :
  within_limits sample_message = true /\
  well_typed sample_message = true /\
  decode_plugin_message_vec
    (encode_plugin_message sample_message ++ [xff; x00; x2a])
  = Returns sample_message.
Proof.
  split; [reflexivity|]. split; [reflexivity|].
  apply (trailing_bytes_ignored sample_message [xff; x00; x2a]);
    reflexivity.
Defined.

(** X4.  On messages within the limits the encoding is injective and
    prefix-free: if the encoding of one message is the encoding of another
    followed by some bytes, the messages are equal and no byte follows. *)
Theorem encoding_prefix_free (m1 m2 : list Plugin) (rest : list byte) :
  within_limits m1 = true -> well_typed m1 = true ->
  within_limits m2 = true -> well_typed m2 = true ->
  encode_plugin_message m2 = encode_plugin_message m1 ++ rest ->
  m1 = m2 /\ rest = [].
Proof.
  intros Hl1 Hw1 Hl2 Hw2 He.
  pose proof (roundtrip m2 Hl2 Hw2) as H2.
  pose proof (trailing_bytes_ignored m1 rest Hl1 Hw1) as H1.
  rewrite <- He, H2 in H1. injection H1 as ->. split; [reflexivity|].
  apply (f_equal length) in He. rewrite length_app in He.
  destruct rest; [reflexivity|]. cbn [length] in He. lia.
Qed.

Lemma encoding_prefix_free_witness :
  within_limits [sample_plugin] = true /\
  well_typed [sample_plugin] = true /\
  encode_plugin_message [sample_plugin]
    = encode_plugin_message [sample_plugin] ++ [] /\
  [sample_plugin] = [sample_plugin] /\ @nil byte = [].
Proof.
  split; [reflexivity|]. split; [reflexivity|]. split; [reflexivity|].
  apply (encoding_prefix_free [sample_plugin] [sample_plugin] []);
    reflexivity.
Defined.

(** X5.  [write_string] keeps only the low 16 bits of the length, and
    [read_string] believes them: reading back what was written for a text
    [s] returns the first [length s mod 65536] bytes of [s].  So the text
    comes back whole exactly when its length is at most 65535. *)
Theorem text_length_wraps (s : std_string) :
  let written := buffer (write_string s {| buffer := [] |}) in
  let n := Z.to_nat (Z.of_nat (length s) mod 2 ^ 16) in
  run read_string {| data := written; size := length written; pos := 0 |}
    = Returns (take n s) /\
  (take n s = s <-> fits16 (length s) = true).
Proof.
  intros written n. subst written.
  rewrite (emits_from_empty _ _ (emits_write_string s)).
  set (d := {| data := layout_string s; size := length (layout_string s);
               pos := 0 |}).
  assert (Hlen : length (layout_string s) = 2 + length s).
  { unfold layout_string. rewrite length_app. reflexivity. }
  assert (Hr : readable d) by (unfold readable, d; cbn; lia).
  assert (Hw : window d (le16 (cast_uint16 (Z.of_nat (length s))) ++ s)).
  { unfold window. split; [|split; [exact Hr|]].
    - unfold d. cbn [pos size]. fold (layout_count (length s)).
      fold (layout_string s). lia.
    - unfold d. cbn [pos data]. rewrite drop_0. apply firstn_all. }
  assert (Hn : n <= length s).
  { unfold n. pose proof (Z.mod_pos_bound (Z.of_nat (length s)) (2 ^ 16)).
    assert (Z.of_nat (length s) mod 2 ^ 16 <= Z.of_nat (length s))%Z
      by (apply Z.mod_le; lia).
    lia. }
  split.
  - unfold run. rewrite read_string_spec by assumption.
    assert (H16 : word16_at d = cast_uint16 (Z.of_nat (length s))).
    { apply (window_word16 d _ s (cast_uint16_range _) Hw). }
    cbv zeta. rewrite H16. unfold cast_uint16. fold n.
    change (size d) with (length (layout_string s)).
    change (pos d) with 0. change (data d) with (layout_string s).
    rewrite Hlen.
    destruct (Nat.ltb_spec (2 + length s) (0 + 2)); [lia|].
    destruct (Nat.ltb_spec (2 + length s) (0 + 2 + n)); [lia|].
    reflexivity.
  - unfold fits16. rewrite Z.leb_le. split.
    + intros Ht. apply (f_equal length) in Ht.
      rewrite length_take in Ht.
      assert (Hm : (Z.of_nat (length s) mod 2 ^ 16 < 2 ^ 16)%Z)
        by (apply Z.mod_pos_bound; lia).
      unfold n in *. lia.
    + intros Hs. apply take_ge. unfold n.
      rewrite Z.mod_small by lia. lia.
Qed.

Lemma length_layout_seq {A} (L : nat -> A -> list byte) (f : A -> nat) :
  (forall i x, length (L i x) = f x) ->
  forall xs k, length (layout_seq L k xs) = sum_list (map f xs).
Proof.
  intros HL xs. induction xs as [|x xs IH]; intros k; [reflexivity|].
  cbn [layout_seq map sum_list]. rewrite length_app, HL, IH. reflexivity.
Qed.

Lemma length_layout_string (s : std_string) :
  length (layout_string s) = string_size s.
Proof. unfold layout_string. rewrite length_app. reflexivity. Qed.

Lemma length_layout_parameter (t : flag_bytes) (p : Parameter_) :
  length (layout_parameter t p) = parameter_size p.
Proof.
  unfold layout_parameter, parameter_size.
  assert (Hiv : forall b o, length (layout_indexed_values b o)
                            = indexed_values_size o).
  { intros b [v|]; [|reflexivity]. unfold layout_indexed_values.
    rewrite !length_app.
    rewrite (length_layout_seq (fun _ => layout_string) string_size)
      by (intros _ x; apply length_layout_string).
    reflexivity. }
  assert (Hsrc : forall b o, length (layout_indexed_values_source b o)
                             = indexed_values_source_size o).
  { intros b [s|]; [|reflexivity]. unfold layout_indexed_values_source.
    rewrite length_app, length_layout_string. reflexivity. }
  rewrite !length_app, !length_layout_string, Hiv, Hsrc.
  cbn [length layout_float32 layout_int32 layout_int64 le32 le64]. lia.
Qed.

Lemma length_layout_plugin (t : nat -> flag_bytes) (p : Plugin) :
  length (layout_plugin t p) = plugin_size p.
Proof.
  unfold layout_plugin, plugin_size.
  rewrite !length_app, !length_layout_string.
  rewrite (length_layout_seq (fun i => layout_parameter (t i)) parameter_size)
    by (intros i x; apply length_layout_parameter).
  cbn [length layout_count le16]. lia.
Qed.

(** X6.  The encoding has no padding: its length is the sum of the sizes
    of its parts, 2 bytes for each count, 2 plus its length for each text, 1
    for each presence flag and boolean, 4 for each [float] and [int32_t], 8
    for the [int64_t].  It is never shorter than the 2 bytes of the plugin
    count. *)
Theorem encoded_length (m : list Plugin) :
  length (encode_plugin_message m) = message_size m /\
  2 <= length (encode_plugin_message m).
Proof.
  assert (H : length (encode_plugin_message m) = message_size m).
  { rewrite encode_plugin_message_layout. unfold layout_message, message_size.
    rewrite length_app.
    rewrite (length_layout_seq
               (fun j => layout_plugin (fun _ => canonical_flags)) plugin_size)
      by (intros j x; apply length_layout_plugin).
    reflexivity. }
  split; [exact H|]. rewrite H. unfold message_size. lia.
Qed.

(* ===================================================================== *)
(** ** What the decoder can return                                         *)
(* ===================================================================== *)

Lemma ensures_ret {A} (a : A) (Q : A -> Prop) : Q a -> ensures (ret a) Q.
Proof. intros HQ d b d' _ _ [= <- _]. exact HQ. Qed.

Lemma ensures_bind {A B} (m : M A) (f : A -> M B)
      (Q : A -> Prop) (R : B -> Prop) :
  sound m -> ensures m Q -> (forall a, Q a -> ensures (f a) R) ->
  ensures (bind m f) R.
Proof.
  intros Hs Hm Hf d b d'' Hr Hp Hrun. unfold bind in Hrun.
  specialize (Hs d Hr Hp). specialize (Hm d).
  destruct (m d) as [a d'| |]; try discriminate.
  destruct Hs as (p & -> & Hpp & _).
  apply (Hf a (Hm a _ Hr Hp eq_refl) (set_pos d p) b d''); auto.
  cbn [set_pos pos size]. lia.
Qed.

Lemma ensures_weaken {A} (m : M A) (Q R : A -> Prop) :
  (forall a, Q a -> R a) -> ensures m Q -> ensures m R.
Proof. intros HQR Hm d a d' Hr Hp Hrun. eauto. Qed.

Lemma ensures_for_push {A} (body : M A) (Q : A -> Prop) :
  sound body -> ensures body Q ->
  forall n acc, Forall Q acc ->
    ensures (for_push n body acc)
            (fun l => Forall Q l /\ length l = length acc + n).
Proof.
  intros Hs Hb n. induction n as [|n IH]; intros acc Hacc; cbn [for_push].
  - apply ensures_ret. split; [assumption|lia].
  - eapply ensures_bind; [exact Hs | exact Hb |].
    intros x Hx. eapply ensures_weaken; [|apply IH].
    + intros l [Hl Hlen]. split; [assumption|].
      rewrite length_app in Hlen. cbn [length] in Hlen. lia.
    + apply Forall_app. split; [assumption|]. constructor; [assumption|].
      constructor.
Qed.

Lemma word16_at_range (d : Decoder) : (0 <= word16_at d < 2 ^ 16)%Z.
Proof. apply cast_uint16_range. Qed.

Lemma fits16_to_nat (z : Z) (n : nat) :
  (0 <= z < 2 ^ 16)%Z -> n <= Z.to_nat z -> fits16 n = true.
Proof. intros Hz Hn. unfold fits16. apply Z.leb_le. lia. Qed.

Lemma ensures_read_string :
  ensures read_string (fun s => fits16 (length s) = true).
Proof.
  intros d s d' Hr Hp Hrun. rewrite read_string_spec in Hrun by assumption.
  destruct (size d <? pos d + 2); [discriminate|]. cbv zeta in Hrun.
  destruct (size d <? pos d + 2 + Z.to_nat (word16_at d)); [discriminate|].
  injection Hrun as <- _.
  apply (fits16_to_nat (word16_at d)); [apply word16_at_range|].
  rewrite length_take. lia.
Qed.

Lemma ensures_read_array_length :
  ensures read_array_length (fun len => (0 <= len < 2 ^ 16)%Z).
Proof.
  intros d len d' Hr Hp Hrun.
  rewrite read_array_length_spec in Hrun by assumption.
  destruct (size d <? pos d + 2); [discriminate|].
  injection Hrun as <- _. apply word16_at_range.
Qed.

Lemma cast_int32_range (u : Z) : is_int32 (cast_int32 u) = true.
Proof.
  unfold is_int32, cast_int32.
  pose proof (Z.mod_pos_bound u (2 ^ 32) ltac:(lia)).
  apply andb_true_iff.
  destruct (Z.ltb_spec (u mod 2 ^ 32) (2 ^ 31));
    split; [apply Z.leb_le|apply Z.ltb_lt|apply Z.leb_le|apply Z.ltb_lt]; lia.
Qed.

Lemma cast_int64_range (u : Z) : is_int64 (cast_int64 u) = true.
Proof.
  unfold is_int64, cast_int64.
  pose proof (Z.mod_pos_bound u (2 ^ 64) ltac:(lia)).
  apply andb_true_iff.
  destruct (Z.ltb_spec (u mod 2 ^ 64) (2 ^ 63));
    split; [apply Z.leb_le|apply Z.ltb_lt|apply Z.leb_le|apply Z.ltb_lt]; lia.
Qed.

Lemma is_uint32_cast (u : Z) : is_uint32 (cast_uint32 u) = true.
Proof.
  unfold is_uint32. pose proof (cast_uint32_range u).
  apply andb_true_iff. split; [apply Z.leb_le|apply Z.ltb_lt]; lia.
Qed.

Lemma ensures_read_int32 : ensures read_int32 (fun v => is_int32 v = true).
Proof.
  intros d v d' Hr Hp Hrun. rewrite read_int32_spec in Hrun by assumption.
  destruct (size d <? pos d + 4); [discriminate|].
  injection Hrun as <- _. apply cast_int32_range.
Qed.

Lemma ensures_read_int64 : ensures read_int64 (fun v => is_int64 v = true).
Proof.
  intros d v d' Hr Hp Hrun. rewrite read_int64_spec in Hrun by assumption.
  destruct (size d <? pos d + 8); [discriminate|].
  injection Hrun as <- _. apply cast_int64_range.
Qed.

Lemma ensures_read_float32 :
  ensures read_float32 (fun v => is_uint32 v = true).
Proof.
  intros d v d' Hr Hp Hrun. rewrite read_float32_spec in Hrun by assumption.
  destruct (size d <? pos d + 4); [discriminate|].
  injection Hrun as <- _. apply is_uint32_cast.
Qed.

Lemma ensures_trivial {A} (m : M A) : ensures m (fun _ => True).
Proof. intros d a d' _ _ _. exact I. Qed.

Lemma ensures_decode_indexed_values :
  ensures decode_indexed_values
    (fun o => match o with
              | Some v => fits16 (length v)
                          && forallb (fun s => fits16 (length s)) v
              | None => true
              end = true).
Proof.
  unfold decode_indexed_values.
  eapply ensures_bind; [apply sound_read_bool | apply ensures_trivial |].
  intros [|] _; [|apply ensures_ret; reflexivity].
  eapply ensures_bind;
    [apply sound_read_array_length | apply ensures_read_array_length |].
  intros len Hlen.
  eapply ensures_bind;
    [apply sound_for_push, sound_read_string
    |apply (ensures_for_push read_string _ sound_read_string
              ensures_read_string (Z.to_nat len) []); constructor |].
  intros v [Hv Hn]. apply ensures_ret. apply andb_true_iff. split.
  - apply (fits16_to_nat len); [assumption|]. cbn [length] in Hn. lia.
  - apply forallb_forall. intros s Hs. rewrite Forall_forall in Hv.
    apply Hv. apply list_elem_of_In. assumption.
Qed.

Lemma ensures_decode_indexed_values_source :
  ensures decode_indexed_values_source
    (fun o => match o with Some s => fits16 (length s) | None => true end
              = true).
Proof.
  unfold decode_indexed_values_source.
  eapply ensures_bind; [apply sound_read_bool | apply ensures_trivial |].
  intros [|] _; [|apply ensures_ret; reflexivity].
  eapply ensures_bind; [apply sound_read_string | apply ensures_read_string |].
  intros s Hs. apply ensures_ret. assumption.
Qed.

Lemma ensures_decode_parameter :
  ensures decode_parameter
    (fun p => parameter_within_limits p = true /\
              parameter_well_typed p = true).
Proof.
  unfold decode_parameter.
  eapply ensures_bind; [apply sound_read_string|apply ensures_read_string|].
  intros s1 H1.
  eapply ensures_bind; [apply sound_read_float32|apply ensures_read_float32|].
  intros f1 F1.
  eapply ensures_bind; [apply sound_read_float32|apply ensures_read_float32|].
  intros f2 F2.
  eapply ensures_bind; [apply sound_read_int32|apply ensures_read_int32|].
  intros a1 A1.
  eapply ensures_bind; [apply sound_read_float32|apply ensures_read_float32|].
  intros f3 F3.
  eapply ensures_bind; [apply sound_read_float32|apply ensures_read_float32|].
  intros f4 F4.
  eapply ensures_bind; [apply sound_read_string|apply ensures_read_string|].
  intros s2 H2.
  eapply ensures_bind; [apply sound_read_string|apply ensures_read_string|].
  intros s3 H3.
  eapply ensures_bind; [apply sound_read_bool|apply ensures_trivial|].
  intros b1 _.
  eapply ensures_bind; [apply sound_read_bool|apply ensures_trivial|].
  intros b2 _.
  eapply ensures_bind; [apply sound_read_int64|apply ensures_read_int64|].
  intros r1 R1.
  eapply ensures_bind;
    [apply sound_decode_indexed_values|apply ensures_decode_indexed_values|].
  intros iv Hiv.
  eapply ensures_bind;
    [apply sound_decode_indexed_values_source
    |apply ensures_decode_indexed_values_source|].
  intros ivs Hivs. apply ensures_ret.
  unfold parameter_within_limits, parameter_well_typed.
  cbn [DisplayName DefaultValue CurrentValue Address MaxValue MinValue Unit
       Identifier CanRamp IsWritable RawFlags IndexedValues
       IndexedValuesSource].
  rewrite H1, H2, H3, Hiv, Hivs, F1, F2, F3, F4, A1, R1. split; reflexivity.
Qed.

Lemma ensures_decode_plugin :
  ensures decode_plugin
    (fun p => plugin_within_limits p = true /\ plugin_well_typed p = true).
Proof.
  unfold decode_plugin.
  eapply ensures_bind; [apply sound_read_string|apply ensures_read_string|].
  intros s1 H1.
  eapply ensures_bind; [apply sound_read_string|apply ensures_read_string|].
  intros s2 H2.
  eapply ensures_bind; [apply sound_read_string|apply ensures_read_string|].
  intros s3 H3.
  eapply ensures_bind; [apply sound_read_string|apply ensures_read_string|].
  intros s4 H4.
  eapply ensures_bind;
    [apply sound_read_array_length | apply ensures_read_array_length |].
  intros len Hlen.
  eapply ensures_bind;
    [apply sound_for_push, sound_decode_parameter
    |apply (ensures_for_push decode_parameter _ sound_decode_parameter
              ensures_decode_parameter (Z.to_nat len) []); constructor |].
  intros ps [Hps Hn]. apply ensures_ret.
  unfold plugin_within_limits, plugin_well_typed.
  cbn [Name ManufacturerID Type_ Subtype Parameters].
  rewrite H1, H2, H3, H4.
  rewrite (fits16_to_nat len (length ps) Hlen)
    by (cbn [length] in Hn; lia).
  cbn [andb]. split; apply forallb_forall; intros q Hq;
    rewrite Forall_forall in Hps; apply Hps, list_elem_of_In; assumption.
Qed.

Lemma ensures_decode_message :
  ensures decode_message
    (fun m => within_limits m = true /\ well_typed m = true).
Proof.
  unfold decode_message.
  eapply ensures_bind;
    [apply sound_read_array_length | apply ensures_read_array_length |].
  intros len Hlen. eapply ensures_weaken;
    [|apply (ensures_for_push decode_plugin _ sound_decode_plugin
               ensures_decode_plugin (Z.to_nat len) []); constructor].
  intros m [Hm Hn]. unfold within_limits, well_typed.
  rewrite (fits16_to_nat len (length m) Hlen)
    by (cbn [length] in Hn; lia).
  cbn [andb]. split; apply forallb_forall; intros q Hq;
    rewrite Forall_forall in Hm; apply Hm, list_elem_of_In; assumption.
Qed.

(** X7.  Whatever the bytes, a message that [decode_plugin_message]
    returns is within the 16-bit limits and holds values of its field
    types, so that it encodes and decodes to itself: decoding, encoding and
    decoding again gives what the first decoding gave. *)
Theorem decoded_message_in_domain (mem : list byte) (n : nat)
    (m : list Plugin) :
  n <= length mem ->
  decode_plugin_message mem n = Returns m ->
  within_limits m = true /\ well_typed m = true /\
  decode_plugin_message_vec (encode_plugin_message m) = Returns m.
Proof.
  intros Hn Hdec. unfold decode_plugin_message, run in Hdec.
  destruct (decode_message {| data := mem; size := n; pos := 0 |})
    as [m' d'| |] eqn:E; try discriminate.
  injection Hdec as ->.
  destruct (ensures_decode_message {| data := mem; size := n; pos := 0 |}
              m d' Hn ltac:(cbn; lia) E) as [Hl Hw].
  split; [assumption|]. split; [assumption|]. apply roundtrip; assumption.
Qed.

Lemma decoded_message_in_domain_witness :
  length stray_bytes <= length stray_bytes /\
  decode_plugin_message stray_bytes (length stray_bytes)
    = Returns [ {| Name := []; ManufacturerID := []; Type_ := [];
                   Subtype := []; Parameters := [] |} ] /\
  decode_plugin_message_vec
    (encode_plugin_message
       [ {| Name := []; ManufacturerID := []; Type_ := [];
            Subtype := []; Parameters := [] |} ])
    = Returns [ {| Name := []; ManufacturerID := []; Type_ := [];
                   Subtype := []; Parameters := [] |} ].
Proof.
  split; [reflexivity|]. split; [reflexivity|].
  apply (decoded_message_in_domain stray_bytes (length stray_bytes));
    reflexivity.
Defined.

(** X8.  On any input at all, with a supplied length that the buffer
    really has, the decoder reads no byte at or beyond that length: it
    returns a message or throws "insufficient data for decode", and so
    [message_decode] and [plugin_decode] always complete, with a handle or
    with an error. *)
Theorem decode_any_input (mem : list byte) (n : nat) (error_msg : bool)
    (hm : MessageC.heap) (hp : PluginC.heap) :
  n <= length mem ->
  decode_plugin_message mem n <> Undefined /\
  (forall what, decode_plugin_message mem n = Throws what ->
                what = insufficient_data) /\
  MessageC.message_decode (Some mem) n error_msg hm <> UB /\
  PluginC.plugin_decode (Some mem) n error_msg hp <> UB.
Proof.
  intros Hn.
  unfold MessageC.message_decode, PluginC.plugin_decode.
  destruct (decode_plugin_message_safe mem n Hn) as [[m ->] | ->].
  - repeat split; try discriminate.
    + destruct (n =? 0); [discriminate|]. destruct m; discriminate.
    + destruct (n =? 0); [discriminate|]. destruct m; discriminate.
  - repeat split; try discriminate.
    + intros what [= <-]. reflexivity.
    + destruct (n =? 0); discriminate.
    + destruct (n =? 0); discriminate.
Qed.

Lemma decode_any_input_witness :
  length stray_bytes <= length stray_bytes /\
  decode_plugin_message stray_bytes (length stray_bytes) <> Undefined /\
  decode_plugin_message [xff; xff; x05] 3 = Throws insufficient_data.
Proof.
  split; [reflexivity|]. split.
  - apply (decode_any_input stray_bytes (length stray_bytes) true ∅ ∅).
    reflexivity.
  - destruct (decode_any_input [xff; xff; x05] 3 true ∅ ∅ ltac:(reflexivity))
      as (_ & H & _).
    destruct (decode_plugin_message [xff; xff; x05] 3) as [m|w|] eqn:E;
      [vm_compute in E; discriminate
      | rewrite (H w eq_refl); reflexivity
      | vm_compute in E; discriminate].
Defined.

(* ===================================================================== *)
(** ** Further properties of the boundary                                  *)
(* ===================================================================== *)

Lemma fresh_not_live {V} (h : gmap positive V) : h !! fresh (dom h) = None.
Proof. apply not_elem_of_dom, is_fresh. Qed.

Lemma plugin_decode_inv data len e (h : PluginC.heap) handle err h' :
  PluginC.plugin_decode data len e h = Done (handle, err, h') ->
  (handle = nullptr /\ h' = h /\ exists msg, err = store_error e msg) \/
  (exists bytes p ps,
     data = Some bytes /\ len <> 0 /\
     decode_plugin_message bytes len = Returns (p :: ps) /\
     handle = Addr (fresh (dom h)) /\ err = None /\
     h' = <[fresh (dom h) :=
              PluginC.PluginObj {| PluginC.plugins := p :: ps;
                                   PluginC.error := "";
                                   PluginC.encoded_data := [] |}]> h).
Proof.
  unfold PluginC.plugin_decode. intros H.
  destruct data as [bytes|]; [|injection H as <- <- <-; left; eauto].
  destruct (Nat.eqb_spec len 0); [injection H as <- <- <-; left; eauto|].
  destruct (decode_plugin_message bytes len) as [[|p ps]|w|] eqn:E;
    try discriminate; injection H as <- <- <-; [left; eauto| |left; eauto].
  right. exists bytes, p, ps. repeat split; assumption.
Qed.

Lemma message_decode_inv data len e (h : MessageC.heap) handle err h' :
  MessageC.message_decode data len e h = Done (handle, err, h') ->
  (handle = nullptr /\ h' = h /\ exists msg, err = store_error e msg) \/
  (exists bytes p ps,
     data = Some bytes /\ len <> 0 /\
     decode_plugin_message bytes len = Returns (p :: ps) /\
     handle = Addr (fresh (dom h)) /\ err = None /\
     h' = <[fresh (dom h) :=
              {| MessageC.items := p :: ps; MessageC.error := "";
                 MessageC.encoded_data := [] |}]> h).
Proof.
  unfold MessageC.message_decode. intros H.
  destruct data as [bytes|]; [|injection H as <- <- <-; left; eauto].
  destruct (Nat.eqb_spec len 0); [injection H as <- <- <-; left; eauto|].
  destruct (decode_plugin_message bytes len) as [[|p ps]|w|] eqn:E;
    try discriminate; injection H as <- <- <-; [left; eauto| |left; eauto].
  right. exists bytes, p, ps. repeat split; assumption.
Qed.

(** X9.  A decode at the boundary either fails -- null handle, the heap
    as it was, a message for the caller -- or makes one new object: the
    handle returned was not live before, it owns exactly the plugins the
    codec decoded, of which there is at least one, no error is stored and
    every other object is as it was. *)
Theorem decode_makes_fresh_handle (data : option (list byte)) (len : nat)
    (error_msg : bool) (hp : PluginC.heap) (hm : MessageC.heap) :
  (forall handle err hp',
     PluginC.plugin_decode data len error_msg hp = Done (handle, err, hp') ->
     (handle = nullptr /\ hp' = hp /\
      exists msg, err = store_error error_msg msg) \/
     (exists a bytes p ps,
        handle = Addr a /\ err = None /\ data = Some bytes /\
        decode_plugin_message bytes len = Returns (p :: ps) /\
        hp !! a = None /\
        hp' !! a = Some (PluginC.PluginObj
                           {| PluginC.plugins := p :: ps;
                              PluginC.error := "";
                              PluginC.encoded_data := [] |}) /\
        forall x, x <> a -> hp' !! x = hp !! x)) /\
  (forall handle err hm',
     MessageC.message_decode data len error_msg hm
       = Done (handle, err, hm') ->
     (handle = nullptr /\ hm' = hm /\
      exists msg, err = store_error error_msg msg) \/
     (exists a bytes p ps,
        handle = Addr a /\ err = None /\ data = Some bytes /\
        decode_plugin_message bytes len = Returns (p :: ps) /\
        hm !! a = None /\
        hm' !! a = Some {| MessageC.items := p :: ps; MessageC.error := "";
                           MessageC.encoded_data := [] |} /\
        forall x, x <> a -> hm' !! x = hm !! x)).
Proof.
  split.
  - intros handle err hp' H.
    destruct (plugin_decode_inv _ _ _ _ _ _ _ H)
      as [?|(bytes & p & ps & -> & _ & Hd & -> & -> & ->)]; [left; auto|].
    right. exists (fresh (dom hp)), bytes, p, ps.
    do 4 (split; [reflexivity || assumption|]).
    split; [apply fresh_not_live|]. split; [apply lookup_insert_eq|].
    intros x Hx. apply lookup_insert_ne. congruence.
  - intros handle err hm' H.
    destruct (message_decode_inv _ _ _ _ _ _ _ H)
      as [?|(bytes & p & ps & -> & _ & Hd & -> & -> & ->)]; [left; auto|].
    right. exists (fresh (dom hm)), bytes, p, ps.
    do 4 (split; [reflexivity || assumption|]).
    split; [apply fresh_not_live|]. split; [apply lookup_insert_eq|].
    intros x Hx. apply lookup_insert_ne. congruence.
Qed.

Lemma decode_makes_fresh_handle_witness :
  PluginC.plugin_decode (Some (encode_plugin_message sample_message))
    (length (encode_plugin_message sample_message)) true heap2
    = Done (Addr 3, None,
            <[3%positive := PluginC.PluginObj sample_impl]> heap2) /\
  heap2 !! 3%positive = None.
Proof.
  assert (H : PluginC.plugin_decode
                (Some (encode_plugin_message sample_message))
                (length (encode_plugin_message sample_message)) true heap2
              = Done (Addr 3, None,
                      <[3%positive := PluginC.PluginObj sample_impl]> heap2))
    by (vm_compute; reflexivity).
  split; [exact H|].
  destruct (decode_makes_fresh_handle
              (Some (encode_plugin_message sample_message))
              (length (encode_plugin_message sample_message)) true heap2 ∅)
    as [Hp _].
  destruct (Hp _ _ _ H) as [(Hnull & _)|(a & b & p & ps & Ha & _ & _ & _ & Hf & _)];
    [discriminate|].
  injection Ha as <-. exact Hf.
Defined.

(** X10.  Decoding and then freeing the handle returned gives back the
    heap the decode started from: the pair leaves nothing behind. *)
Theorem decode_then_free (data : option (list byte)) (len : nat)
    (error_msg : bool) (hp : PluginC.heap) (hm : MessageC.heap) :
  (forall handle err hp',
     PluginC.plugin_decode data len error_msg hp = Done (handle, err, hp') ->
     PluginC.plugin_free handle hp' = Done hp) /\
  (forall handle err hm',
     MessageC.message_decode data len error_msg hm
       = Done (handle, err, hm') ->
     MessageC.message_free handle hm' = Done hm).
Proof.
  split.
  - intros handle err hp' H.
    destruct (plugin_decode_inv _ _ _ _ _ _ _ H)
      as [(-> & -> & _)|(bytes & p & ps & _ & _ & _ & -> & _ & ->)];
      [reflexivity|].
    unfold PluginC.plugin_free, PluginC.plugin_impl.
    rewrite lookup_insert_eq. cbn.
    rewrite delete_insert_id by apply fresh_not_live. reflexivity.
  - intros handle err hm' H.
    destruct (message_decode_inv _ _ _ _ _ _ _ H)
      as [(-> & -> & _)|(bytes & p & ps & _ & _ & _ & -> & _ & ->)];
      [reflexivity|].
    unfold MessageC.message_free. rewrite lookup_insert_eq.
    rewrite delete_insert_id by apply fresh_not_live. reflexivity.
Qed.

Lemma decode_then_free_witness :
  PluginC.plugin_decode (Some (encode_plugin_message sample_message))
    (length (encode_plugin_message sample_message)) true heap2
    = Done (Addr 3, None,
            <[3%positive := PluginC.PluginObj sample_impl]> heap2) /\
  PluginC.plugin_free (Addr 3)
    (<[3%positive := PluginC.PluginObj sample_impl]> heap2) = Done heap2.
Proof.
  assert (H : PluginC.plugin_decode
                (Some (encode_plugin_message sample_message))
                (length (encode_plugin_message sample_message)) true heap2
              = Done (Addr 3, None,
                      <[3%positive := PluginC.PluginObj sample_impl]> heap2))
    by (vm_compute; reflexivity).
  split; [exact H|].
  destruct (decode_then_free
              (Some (encode_plugin_message sample_message))
              (length (encode_plugin_message sample_message)) true heap2 ∅)
    as [Hp _].
  exact (Hp _ _ _ H).
Defined.

(** X11.  A completed free of a non-null handle removes the handle's
    object and nothing else; freeing the same handle again is undefined,
    while freeing the null handle does nothing. *)
Theorem free_releases_one_object (hp : PluginC.heap) (hm : MessageC.heap) :
  (forall a hp', PluginC.plugin_free (Addr a) hp = Done hp' ->
     hp' = delete a hp /\ hp' !! a = None /\
     (forall x, x <> a -> hp' !! x = hp !! x) /\
     PluginC.plugin_free (Addr a) hp' = UB) /\
  (forall a hm', MessageC.message_free (Addr a) hm = Done hm' ->
     hm' = delete a hm /\ hm' !! a = None /\
     (forall x, x <> a -> hm' !! x = hm !! x) /\
     MessageC.message_free (Addr a) hm' = UB) /\
  PluginC.plugin_free nullptr hp = Done hp /\
  MessageC.message_free nullptr hm = Done hm.
Proof.
  split; [|split; [|split; reflexivity]].
  - intros a hp' H. unfold PluginC.plugin_free in H.
    destruct (PluginC.plugin_impl a hp); [|discriminate].
    cbn in H. injection H as <-.
    split; [reflexivity|]. split; [apply lookup_delete_eq|]. split.
    + intros x Hx. apply lookup_delete_ne. congruence.
    + unfold PluginC.plugin_free, PluginC.plugin_impl.
      rewrite lookup_delete_eq. reflexivity.
  - intros a hm' H. unfold MessageC.message_free in H.
    destruct (hm !! a); [|discriminate]. injection H as <-.
    split; [reflexivity|]. split; [apply lookup_delete_eq|]. split.
    + intros x Hx. apply lookup_delete_ne. congruence.
    + unfold MessageC.message_free. rewrite lookup_delete_eq. reflexivity.
Qed.

Lemma free_releases_one_object_witness :
  PluginC.plugin_free (Addr 1) heap2 = Done (delete 1%positive heap2) /\
  delete 1%positive heap2 !! 2%positive = heap2 !! 2%positive /\
  PluginC.plugin_free (Addr 1) (delete 1%positive heap2) = UB.
Proof.
  assert (H : PluginC.plugin_free (Addr 1) heap2
              = Done (delete 1%positive heap2)) by reflexivity.
  split; [exact H|].
  destruct (free_releases_one_object heap2 ∅) as [Hp _].
  destruct (Hp 1%positive _ H) as (_ & _ & Hx & Hub).
  split; [apply Hx; discriminate | exact Hub].
Defined.

Lemma plugin_get_parameter_inv (h : PluginC.heap) (a : positive) (i : nat)
      (ph : pointer) (h' : PluginC.heap) :
  PluginC.plugin_get_parameter (Addr a) i h = Done (ph, h') ->
  exists p, PluginC.first_plugin a h = Done p /\
    ((length (Parameters p) <= i /\ ph = nullptr /\ h' = h) \/
     (i < length (Parameters p) /\ ph = Addr (fresh (dom h)) /\
      h' = <[fresh (dom h) :=
               PluginC.ParameterObj {| PluginC.owner := a;
                                       PluginC.index := i |}]> h)).
Proof.
  unfold PluginC.plugin_get_parameter. intros H.
  destruct (PluginC.first_plugin a h) as [p|]; [|discriminate].
  exists p. split; [reflexivity|]. cbn in H.
  destruct (Nat.leb_spec (length (Parameters p)) i);
    injection H as <- <-; [left|right]; auto.
Qed.

Lemma first_plugin_is_live (h : PluginC.heap) (a : positive) (p : Plugin) :
  PluginC.first_plugin a h = Done p ->
  exists impl, h !! a = Some (PluginC.PluginObj impl).
Proof.
  unfold PluginC.first_plugin, PluginC.plugin_impl.
  destruct (h !! a) as [[impl|impl]|]; try discriminate. eauto.
Qed.

(** X12.  No boundary function releases a [ParameterHandleImpl]: an
    object made by [plugin_get_parameter] is still there, unchanged, after
    any completed call.  Every [plugin_get_parameter] that returns a
    non-null handle makes such an object at an address that was not live,
    so the heap has one object more. *)
Theorem parameter_objects_never_released :
  (forall h h' b impl,
     step h h' ->
     h !! b = Some (PluginC.ParameterObj impl) ->
     h' !! b = Some (PluginC.ParameterObj impl)) /\
  (forall h handle i b h',
     PluginC.plugin_get_parameter handle i h = Done (Addr b, h') ->
     exists a, handle = Addr a /\
     h !! b = None /\
     h' !! b = Some (PluginC.ParameterObj
                       {| PluginC.owner := a; PluginC.index := i |}) /\
     stdpp.base.size h' = S (stdpp.base.size h)).
Proof.
  split.
  - intros h h' b impl Hstep Hb.
    destruct Hstep as [h data len e handle err h' Hcall
                      |h handle od e n out err h' Hcall
                      |h handle h' Hcall
                      |h handle i ph h' Hcall].
    + destruct (plugin_decode_inv _ _ _ _ _ _ _ Hcall)
        as [(_ & -> & _)|(bytes & p & ps & _ & _ & _ & _ & _ & ->)];
        [assumption|].
      rewrite lookup_insert_ne; [assumption|].
      intros E. rewrite <- E, fresh_not_live in Hb. discriminate.
    + unfold PluginC.plugin_encode in Hcall.
      destruct handle as [|a]; [injection Hcall as <- <- <- <-; assumption|].
      destruct (PluginC.plugin_impl a h) as [impl0|] eqn:E; [|discriminate].
      apply plugin_impl_Done in E. cbn in Hcall.
      destruct od; [|discriminate]. injection Hcall as <- <- <- <-.
      rewrite lookup_insert_ne; [assumption|]. congruence.
    + unfold PluginC.plugin_free in Hcall.
      destruct handle as [|a]; [injection Hcall as <-; assumption|].
      destruct (PluginC.plugin_impl a h) as [impl0|] eqn:E; [|discriminate].
      apply plugin_impl_Done in E. cbn in Hcall. injection Hcall as <-.
      rewrite lookup_delete_ne; [assumption|]. congruence.
    + destruct handle as [|a]; [injection Hcall as <- <-; assumption|].
      destruct (plugin_get_parameter_inv _ _ _ _ _ Hcall)
        as (p & _ & [(_ & _ & ->)|(_ & _ & ->)]); [assumption|].
      rewrite lookup_insert_ne; [assumption|].
      intros E. rewrite <- E, fresh_not_live in Hb. discriminate.
  - intros h handle i b h' Hcall.
    destruct handle as [|a]; [discriminate|]. exists a.
    split; [reflexivity|].
    destruct (plugin_get_parameter_inv _ _ _ _ _ Hcall)
      as (p & _ & [(_ & Hn & _)|(_ & [= ->] & ->)]); [discriminate|].
    split; [apply fresh_not_live|]. split; [apply lookup_insert_eq|].
    apply map_size_insert_None, fresh_not_live.
Qed.

Lemma parameter_objects_never_released_witness :
  step heap2 (<[3%positive := PluginC.PluginObj sample_impl]> heap2) /\
  heap2 !! 2%positive
    = Some (PluginC.ParameterObj
              {| PluginC.owner := 1; PluginC.index := 0 |}) /\
  (<[3%positive := PluginC.PluginObj sample_impl]> heap2) !! 2%positive
    = Some (PluginC.ParameterObj
              {| PluginC.owner := 1; PluginC.index := 0 |}) /\
  stdpp.base.size heap2 = S (stdpp.base.size heap1).
Proof.
  assert (Hs : step heap2
                 (<[3%positive := PluginC.PluginObj sample_impl]> heap2)).
  { apply (step_decode heap2 (Some (encode_plugin_message sample_message))
             (length (encode_plugin_message sample_message)) true
             (Addr 3) None).
    vm_compute. reflexivity. }
  destruct parameter_objects_never_released as [Hkeep Hnew].
  split; [exact Hs|]. split; [reflexivity|].
  split; [exact (Hkeep _ _ 2%positive _ Hs eq_refl)|].
  destruct (Hnew heap1 (Addr 1) 0 2%positive heap2 heap2_got)
    as (a & _ & _ & _ & Hsize).
  exact Hsize.
Defined.

(** X13.  A parameter handle does not outlive its plugin handle: once the
    plugin handle it was obtained from is freed, the parameter object still
    exists but points into released storage, and every accessor called on
    the parameter handle is undefined. *)
Theorem parameter_handle_dangles (h h1 h2 : PluginC.heap) (a b : positive)
    (i : nat) :
  PluginC.plugin_get_parameter (Addr a) i h = Done (Addr b, h1) ->
  PluginC.plugin_free (Addr a) h1 = Done h2 ->
  h2 !! b = Some (PluginC.ParameterObj
                    {| PluginC.owner := a; PluginC.index := i |}) /\
  h2 !! a = None /\
  forall g, call g (Addr b) h2 = UB.
Proof.
  intros Hget Hfree.
  destruct (plugin_get_parameter_inv _ _ _ _ _ Hget)
    as (p & Hfp & [(_ & Hn & _)|(_ & [= ->] & ->)]); [discriminate|].
  destruct (first_plugin_is_live _ _ _ Hfp) as (impl & Ha).
  assert (Hne : a <> fresh (dom h)).
  { intros E. rewrite E, fresh_not_live in Ha. discriminate. }
  unfold PluginC.plugin_free in Hfree.
  destruct (PluginC.plugin_impl a _); [|discriminate].
  cbn in Hfree. injection Hfree as <-.
  assert (Hb : delete a (<[fresh (dom h) :=
                 PluginC.ParameterObj {| PluginC.owner := a;
                                         PluginC.index := i |}]> h)
               !! fresh (dom h)
               = Some (PluginC.ParameterObj
                         {| PluginC.owner := a; PluginC.index := i |})).
  { rewrite lookup_delete_ne by congruence. apply lookup_insert_eq. }
  split; [exact Hb|]. split; [apply lookup_delete_eq|].
  set (h2 := delete a _) in *.
  assert (Hfb : PluginC.first_plugin (fresh (dom h)) h2 = UB).
  { unfold PluginC.first_plugin, PluginC.plugin_impl. rewrite Hb.
    reflexivity. }
  assert (Hpt : PluginC.parameter_target (fresh (dom h)) h2 = UB).
  { unfold PluginC.parameter_target. rewrite Hb. cbn [PluginC.owner].
    unfold PluginC.first_plugin, PluginC.plugin_impl, h2.
    rewrite lookup_delete_eq. reflexivity. }
  intros g. destruct g; cbn; rewrite ?Hfb, ?Hpt; reflexivity.
Qed.

Lemma parameter_handle_dangles_witness :
  PluginC.plugin_get_parameter (Addr 1) 0 heap1 = Done (Addr 2, heap2) /\
  PluginC.plugin_free (Addr 1) heap2 = Done (delete 1%positive heap2) /\
  PluginC.parameter_get_display_name (Addr 2) (delete 1%positive heap2)
    = UB.
Proof.
  assert (H : PluginC.plugin_free (Addr 1) heap2
              = Done (delete 1%positive heap2)) by reflexivity.
  split; [exact heap2_got|]. split; [exact H|].
  destruct (parameter_handle_dangles heap1 heap2 _ 1 2 0 heap2_got H)
    as (_ & _ & Hg).
  pose proof (Hg Get_display_name) as E. cbn [call] in E.
  destruct (PluginC.parameter_get_display_name (Addr 2)
              (delete 1%positive heap2)); [discriminate|reflexivity].
Defined.

(** X14.  [plugin_get_parameter] with an index below the parameter count
    returns a new handle, and through it every parameter accessor returns
    the corresponding field of that parameter of the first plugin: the
    texts, the numbers, the flags as 1 or 0, the element count and the
    elements of [IndexedValues] (null out of range or when absent), and
    [IndexedValuesSource] (null when absent). *)
Theorem get_parameter_then_fields (h : PluginC.heap) (a : positive)
    (p : Plugin) (i : nat) (q : Parameter_) :
  PluginC.first_plugin a h = Done p ->
  Parameters p !! i = Some q ->
  exists b h',
    PluginC.plugin_get_parameter (Addr a) i h = Done (Addr b, h') /\
    h !! b = None /\
    PluginC.parameter_target b h' = Done q /\
    forall g, on_plugin_handle g = false ->
              call g (Addr b) h' = Done (field_of g q).
Proof.
  intros Hfp Hq.
  assert (Hi : i < length (Parameters p)) by (eapply lookup_lt_Some; eauto).
  destruct (first_plugin_is_live _ _ _ Hfp) as (impl & Ha).
  assert (Hne : a <> fresh (dom h)).
  { intros E. rewrite E, fresh_not_live in Ha. discriminate. }
  set (b := fresh (dom h)).
  set (h' := <[b := PluginC.ParameterObj {| PluginC.owner := a;
                                            PluginC.index := i |}]> h).
  exists b, h'.
  assert (Hget : PluginC.plugin_get_parameter (Addr a) i h
                 = Done (Addr b, h')).
  { unfold PluginC.plugin_get_parameter. rewrite Hfp. cbn.
    destruct (Nat.leb_spec (length (Parameters p)) i); [lia|reflexivity]. }
  assert (Hpt : PluginC.parameter_target b h' = Done q).
  { unfold PluginC.parameter_target, h'. rewrite lookup_insert_eq.
    cbn [PluginC.owner PluginC.index].
    assert (Hfp' : PluginC.first_plugin a
                     (<[b := PluginC.ParameterObj
                               {| PluginC.owner := a;
                                  PluginC.index := i |}]> h) = Done p).
    { unfold PluginC.first_plugin, PluginC.plugin_impl in *.
      rewrite lookup_insert_ne by (unfold b; congruence). exact Hfp. }
    rewrite Hfp'. cbn. unfold at_index. rewrite Hq. reflexivity. }
  split; [exact Hget|]. split; [apply fresh_not_live|].
  split; [exact Hpt|].
  intros g Hg. destruct g; try discriminate Hg; cbn; rewrite Hpt; cbn;
    try reflexivity.
  - destruct (IndexedValues q); reflexivity.
  - destruct (IndexedValues q) as [v|]; [|reflexivity].
    destruct (Nat.leb_spec (length v) index).
    + rewrite (lookup_ge_None_2 v index) by assumption. reflexivity.
    + unfold at_index. destruct (v !! index) as [s|] eqn:E; [reflexivity|].
      apply lookup_ge_None in E. lia.
  - destruct (IndexedValuesSource q); reflexivity.
Qed.

Lemma get_parameter_then_fields_witness :
  PluginC.first_plugin 1 heap1
    = Done (with_parameter sample_plugin sample_parameter) /\
  Parameters (with_parameter sample_plugin sample_parameter) !! 0
    = Some sample_parameter /\
  exists b h',
    PluginC.plugin_get_parameter (Addr 1) 0 heap1 = Done (Addr b, h') /\
    PluginC.parameter_get_indexed_value (Addr b) 1 h'
      = Done (Some (str "b")).
Proof.
  split; [reflexivity|]. split; [reflexivity|].
  destruct (get_parameter_then_fields heap1 1
              (with_parameter sample_plugin sample_parameter) 0
              sample_parameter eq_refl eq_refl)
    as (b & h' & Hget & _ & _ & Hg).
  exists b, h'. split; [exact Hget|].
  pose proof (Hg (Get_indexed_value 1) eq_refl) as H.
  change (field_of (Get_indexed_value 1) sample_parameter)
    with (VText (Some (str "b"))) in H.
  cbn [call] in H.
  destruct (PluginC.parameter_get_indexed_value (Addr b) 1 h') as [r|];
    [|discriminate H].
  cbn [returning] in H. injection H as ->. reflexivity.
Defined.

Lemma encode_nonempty (m : list Plugin) :
  length (encode_plugin_message m) <> 0.
Proof.
  rewrite encode_plugin_message_layout. unfold layout_message.
  rewrite length_app. cbn [length layout_count le16]. lia.
Qed.

(** X15.  After [plugin_decode] of the encoding of a message, the plugin
    accessors show the first plugin of the message, whatever plugins
    follow it: its four texts, its parameter count, and through
    [plugin_get_parameter] each of its parameters. *)
Theorem decode_then_first_plugin (p : Plugin) (others : list Plugin)
    (error_msg : bool) (h : PluginC.heap) :
  within_limits (p :: others) = true ->
  well_typed (p :: others) = true ->
  let bytes := encode_plugin_message (p :: others) in
  exists a h',
    PluginC.plugin_decode (Some bytes) (length bytes) error_msg h
      = Done (Addr a, None, h') /\
    PluginC.plugin_get_name (Addr a) h' = Done (Some (Name p)) /\
    PluginC.plugin_get_manufacturer_id (Addr a) h'
      = Done (Some (ManufacturerID p)) /\
    PluginC.plugin_get_type (Addr a) h' = Done (Some (Type_ p)) /\
    PluginC.plugin_get_subtype (Addr a) h' = Done (Some (Subtype p)) /\
    PluginC.plugin_get_parameters_count (Addr a) h'
      = Done (length (Parameters p)) /\
    forall i q, Parameters p !! i = Some q ->
      exists b h'',
        PluginC.plugin_get_parameter (Addr a) i h' = Done (Addr b, h'') /\
        PluginC.parameter_target b h'' = Done q.
Proof.
  intros Hl Hw bytes.
  set (a := fresh (dom h)).
  set (h' := <[a := PluginC.PluginObj
                      {| PluginC.plugins := p :: others;
                         PluginC.error := "";
                         PluginC.encoded_data := [] |}]> h).
  exists a, h'.
  assert (Hfp : PluginC.first_plugin a h' = Done p).
  { unfold PluginC.first_plugin, PluginC.plugin_impl, h'.
    rewrite lookup_insert_eq. reflexivity. }
  split.
  - unfold PluginC.plugin_decode.
    destruct (Nat.eqb_spec (length bytes) 0) as [E|_];
      [exfalso; exact (encode_nonempty _ E)|].
    pose proof (roundtrip (p :: others) Hl Hw) as Hrt.
    unfold decode_plugin_message_vec in Hrt. fold bytes in Hrt.
    rewrite Hrt. reflexivity.
  - unfold PluginC.plugin_get_name, PluginC.plugin_get_manufacturer_id,
      PluginC.plugin_get_type, PluginC.plugin_get_subtype,
      PluginC.plugin_get_parameters_count.
    rewrite Hfp. cbn [and_then].
    do 5 (split; [reflexivity|]).
    intros i q Hq.
    destruct (get_parameter_then_fields h' a p i q Hfp Hq)
      as (b & h'' & Hget & _ & Hpt & _).
    exists b, h''. split; assumption.
Qed.

Lemma decode_then_first_plugin_witness :
  within_limits (with_parameter sample_plugin sample_parameter
                 :: [sample_plugin]) = true /\
  well_typed (with_parameter sample_plugin sample_parameter
              :: [sample_plugin]) = true /\
  exists a h',
    PluginC.plugin_decode
      (Some (encode_plugin_message
               (with_parameter sample_plugin sample_parameter
                :: [sample_plugin])))
      (length (encode_plugin_message
                 (with_parameter sample_plugin sample_parameter
                  :: [sample_plugin]))) true heap2
      = Done (Addr a, None, h') /\
    PluginC.plugin_get_parameters_count (Addr a) h' = Done 1.
Proof.
  split; [reflexivity|]. split; [reflexivity|].
  destruct (decode_then_first_plugin
              (with_parameter sample_plugin sample_parameter)
              [sample_plugin] true heap2 eq_refl eq_refl)
    as (a & h' & Hd & _ & _ & _ & _ & Hc & _).
  exists a, h'. split; [exact Hd | exact Hc].
Defined.

(** X16.  A completed encode returns 0 exactly for the null handle, and
    then stores the error and no buffer; for any other handle it returns
    the number of bytes of the buffer it hands out, which is at least 2,
    and stores no error.  So the return value 0 tells an error from a
    success. *)
Theorem encode_zero_means_error (out_data error_msg : bool)
    (hp : PluginC.heap) (hm : MessageC.heap) :
  (forall handle n out err hp',
     PluginC.plugin_encode handle out_data error_msg hp
       = Done (n, out, err, hp') ->
     (handle = nullptr /\ n = 0 /\ out = None /\
      err = store_error error_msg "Invalid handle" /\ hp' = hp) \/
     (handle <> nullptr /\ 2 <= n /\ err = None /\
      exists bytes, out = Some bytes /\ length bytes = n)) /\
  (forall handle n out err hm',
     MessageC.message_encode handle out_data error_msg hm
       = Done (n, out, err, hm') ->
     (handle = nullptr /\ n = 0 /\ out = None /\
      err = store_error error_msg "Invalid handle" /\ hm' = hm) \/
     (handle <> nullptr /\ 2 <= n /\ err = None /\
      exists bytes, out = Some bytes /\ length bytes = n)).
Proof.
  split.
  - intros handle n out err hp' H. unfold PluginC.plugin_encode in H.
    destruct handle as [|a].
    + injection H as <- <- <- <-. left. auto.
    + destruct (PluginC.plugin_impl a hp) as [impl|]; [|discriminate].
      cbn in H. destruct out_data; [|discriminate].
      injection H as <- <- <- <-. right.
      split; [discriminate|].
      split; [apply (encoded_length (PluginC.plugins impl))|].
      split; [reflexivity|]. eauto.
  - intros handle n out err hm' H. unfold MessageC.message_encode in H.
    destruct handle as [|a].
    + injection H as <- <- <- <-. left. auto.
    + destruct (hm !! a) as [impl|]; [|discriminate].
      destruct out_data; [|discriminate].
      injection H as <- <- <- <-. right.
      split; [discriminate|].
      split; [apply (encoded_length (MessageC.items impl))|].
      split; [reflexivity|]. eauto.
Qed.

Lemma encode_zero_means_error_witness :
  PluginC.plugin_encode (Addr 1) true true heap2
    = Done (length (encode_plugin_message sample_message),
            Some (encode_plugin_message sample_message), None,
            <[1%positive := PluginC.PluginObj
                {| PluginC.plugins := sample_message; PluginC.error := "";
                   PluginC.encoded_data
                     := encode_plugin_message sample_message |}]> heap2) /\
  2 <= length (encode_plugin_message sample_message).
Proof.
  assert (H : PluginC.plugin_encode (Addr 1) true true heap2
    = Done (length (encode_plugin_message sample_message),
            Some (encode_plugin_message sample_message), None,
            <[1%positive := PluginC.PluginObj
                {| PluginC.plugins := sample_message; PluginC.error := "";
                   PluginC.encoded_data
                     := encode_plugin_message sample_message |}]> heap2))
    by reflexivity.
  split; [exact H|].
  destruct (encode_zero_means_error true true heap2 ∅) as [Hp _].
  destruct (Hp _ _ _ _ _ H) as [(E & _)|(_ & Hn & _)];
    [discriminate | exact Hn].
Defined.

(** X17.  Reachable heaps are closed under the boundary calls, and in a
    reachable heap every live plugin object owns at least one plugin.  So
    [plugins[0]], which the plugin accessors read without a check, exists:
    on a live plugin handle none of them is undefined. *)
Theorem live_plugin_accessors_defined (h : PluginC.heap) :
  reachable h ->
  (forall h', step h h' -> reachable h') /\
  (forall a impl, h !! a = Some (PluginC.PluginObj impl) ->
     PluginC.plugins impl <> [] /\
     forall g, on_plugin_handle g = true -> call g (Addr a) h <> UB).
Proof.
  intros Hr. split.
  - intros h' Hstep.
    destruct Hstep; eauto using reach_decode, reach_encode, reach_free,
                                reach_get_parameter.
  - intros a impl Ha.
    split; [exact (reachable_plugins_nonempty h Hr a impl Ha)|].
    destruct (first_plugin_live h a impl Hr Ha) as (p & ps & _ & Hfp).
    intros g Hg. destruct g; try discriminate Hg; cbn; rewrite Hfp; cbn;
      try discriminate.
    destruct (length (Parameters p) <=? index); discriminate.
Qed.

Lemma live_plugin_accessors_defined_witness :
  reachable heap2 /\
  heap2 !! 1%positive = Some (PluginC.PluginObj sample_impl) /\
  call Get_name (Addr 1) heap2 <> UB.
Proof.
  split; [exact heap2_reachable|]. split; [reflexivity|].
  destruct (live_plugin_accessors_defined heap2 heap2_reachable) as [_ H].
  destruct (H 1%positive sample_impl eq_refl) as [_ Hg].
  exact (Hg Get_name eq_refl).
Defined.

(** X18.  Decoding and encoding again gives the canonical encoding of the
    message: take the layout of a non-empty message within the limits, with
    any non-zero bytes for its set flags and any bytes after it; the
    boundary decode returns a handle, and the boundary encode on that
    handle returns exactly the bytes [encode_plugin_message] produces for
    the message.  When the input was such an encoding, the size returned
    equals the size of the input. *)
Theorem decode_then_encode_canonical (t : nat -> nat -> flag_bytes)
    (m : list Plugin) (junk : list byte) (e1 e2 : bool)
    (hm : MessageC.heap) (hp : PluginC.heap) :
  m <> [] ->
  (forall j i, nonzero_flags (t j i)) ->
  within_limits m = true ->
  well_typed m = true ->
  let input := layout_message t m ++ junk in
  let canonical := encode_plugin_message m in
  (exists a hm' hm'',
     MessageC.message_decode (Some input) (length input) e1 hm
       = Done (Addr a, None, hm') /\
     MessageC.message_encode (Addr a) true e2 hm'
       = Done (length canonical, Some canonical, None, hm'')) /\
  (exists a hp' hp'',
     PluginC.plugin_decode (Some input) (length input) e1 hp
       = Done (Addr a, None, hp') /\
     PluginC.plugin_encode (Addr a) true e2 hp'
       = Done (length canonical, Some canonical, None, hp'')) /\
  (input = canonical -> length canonical = length input).
Proof.
  intros Hne Ht Hl Hw input canonical.
  assert (Hdec : decode_plugin_message input (length input) = Returns m).
  { apply (decode_layout t m); auto.
    - unfold input. apply take_app_length.
    - unfold input. rewrite length_app. lia. }
  assert (Hlen : length input <> 0).
  { unfold input, layout_message. rewrite !length_app.
    cbn [length layout_count le16]. lia. }
  destruct m as [|p ps]; [contradiction|].
  split; [|split].
  - eexists _, _, _. split.
    + unfold MessageC.message_decode.
      destruct (Nat.eqb_spec (length input) 0); [contradiction|].
      rewrite Hdec. reflexivity.
    + unfold MessageC.message_encode. rewrite lookup_insert_eq.
      reflexivity.
  - eexists _, _, _. split.
    + unfold PluginC.plugin_decode.
      destruct (Nat.eqb_spec (length input) 0); [contradiction|].
      rewrite Hdec. reflexivity.
    + unfold PluginC.plugin_encode, PluginC.plugin_impl.
      rewrite lookup_insert_eq. reflexivity.
  - intros ->. reflexivity.
Qed.

Lemma decode_then_encode_canonical_witness :
  sample_message <> [] /\
  (forall j i : nat, nonzero_flags loud_flags) /\
  within_limits sample_message = true /\
  well_typed sample_message = true /\
  exists a hm' hm'',
    MessageC.message_decode
      (Some (layout_message (fun _ _ => loud_flags) sample_message ++ [xff]))
      (length (layout_message (fun _ _ => loud_flags) sample_message
               ++ [xff])) true mheap1
      = Done (Addr a, None, hm') /\
    MessageC.message_encode (Addr a) true true hm'
      = Done (length (encode_plugin_message sample_message),
              Some (encode_plugin_message sample_message), None, hm'').
Proof.
  assert (Hnz : forall j i : nat, nonzero_flags loud_flags)
    by (intros _ _; repeat split; discriminate).
  split; [discriminate|]. split; [exact Hnz|].
  split; [reflexivity|]. split; [reflexivity|].
  destruct (decode_then_encode_canonical (fun _ _ => loud_flags)
              sample_message [xff] true true mheap1 ∅
              ltac:(discriminate) Hnz eq_refl eq_refl) as [H _].
  exact H.
Defined.

(** X19.  The plugin count is written modulo 65536 as well.  A message
    whose number of plugins is a multiple of 65536 is written with the
    count 0, and decoding its encoding returns the empty message, whatever
    the plugins are: they are all lost without an error. *)
Theorem plugin_count_wraps (m : list Plugin) :
  (Z.of_nat (length m) mod 2 ^ 16 = 0)%Z ->
  take 2 (encode_plugin_message m) = [x00; x00] /\
  decode_plugin_message_vec (encode_plugin_message m) = Returns [].
Proof.
  intros Hm.
  assert (Hcount : layout_count (length m) = [x00; x00]).
  { unfold layout_count, cast_uint16. rewrite Hm. reflexivity. }
  assert (Htake : take 2 (encode_plugin_message m) = [x00; x00]).
  { rewrite encode_plugin_message_layout. unfold layout_message.
    rewrite Hcount. reflexivity. }
  split; [exact Htake|].
  unfold decode_plugin_message_vec, decode_plugin_message, run.
  assert (Hreads : reads decode_message [x00; x00] []).
  { unfold decode_message.
    eapply reads_bind_ret.
    - apply (reads_read_array_length 0). reflexivity.
    - cbn. apply reads_ret. }
  rewrite (reads_run decode_message [x00; x00] []
             (encode_plugin_message m)
             (length (encode_plugin_message m)) Hreads Htake).
  - reflexivity.
  - cbn [length]. split; [apply encoded_length | lia].
Qed.

Lemma plugin_count_wraps_witness :
  (Z.of_nat (length (replicate (Z.to_nat 65536) sample_plugin)) mod 2 ^ 16
   = 0)%Z /\
  decode_plugin_message_vec
    (encode_plugin_message (replicate (Z.to_nat 65536) sample_plugin))
  = Returns [].
Proof.
  assert (H : (Z.of_nat (length (replicate (Z.to_nat 65536) sample_plugin))
               mod 2 ^ 16 = 0)%Z).
  { rewrite length_replicate, Z2Nat.id by lia. reflexivity. }
  split; [exact H|].
  apply (plugin_count_wraps (replicate (Z.to_nat 65536) sample_plugin) H).
Defined.
